(** * auto_sync_downloader: duration-bounded chunking and the resumable batch loop

    A shallow embedding of [auto_sync_downloader.py].

    - Python floats are IEEE 754 binary64 numbers; they are modelled by Rocq's
      primitive floats ([PrimFloat]), whose operations are the same binary64
      operations.  The integer constants of the script (20, 30, the initial
      [current_duration = 0]) only ever meet floats, so they are written as
      the floats of the same value.
    - [random.uniform] is modelled by the sequence of values it returns; the
      chunker and the pause between downloads draw from the same sequence.
    - The completion set is a [gset string]; lists are Rocq lists; a Python
      [str] is a Rocq [string], character for character.
    - The collaborators of the script are inputs of the model: the identifier
      list read from the CSV file, the parsed progress file, the directory
      listing, [api.fetch], the writing of a transcript's files, [time.time]
      and [json.dump].  The git synchronisation before and after the run runs
      shell commands and touches none of the script's variables; it is left
      out. *)

From Stdlib Require Import Floats ZArith.
From stdpp Require Import base list strings gmap.

(** ** Data model *)

(** A transcript snippet as [api.fetch] yields it: [seg.start], [seg.duration],
    [seg.text]. *)
Record Segment := {
  start : float;
  duration : float;
  text : string
}.

(** The dict appended to [chunks]: keys ['chunk_id'], ['start'], ['end'],
    ['duration'], ['text'], ['segments']. *)
Record Chunk := {
  chunk_id : nat;
  c_start : float;
  c_end : float;
  c_duration : float;
  c_text : string;
  c_segments : nat
}.

(** The randomness source: the successive results of [random.uniform]. *)
Definition Rand := nat → float.

Definition draw (rnd : Rand) : float * Rand := (rnd 0, λ k, rnd (S k)).

(** ** chunk_smart_duration *)

(** The inner [while i < len(segments)] loop.  [rest] is [segments[i:]]; the
    result is the state at loop exit: [chunk_segments], [chunk_texts],
    [current_duration] and the unconsumed [segments[i:]]. *)
Fixpoint inner_loop (min_duration max_duration target_duration : float)
    (chunk_segments : list Segment) (chunk_texts : list string)
    (current_duration : float) (rest : list Segment)
  : list Segment * list string * float * list Segment :=
  match rest with
  | [] => (chunk_segments, chunk_texts, current_duration, [])
  | seg :: rest' =>
      let seg_duration := duration seg in
      let appended :=
        inner_loop min_duration max_duration target_duration
          (chunk_segments ++ [seg]) (chunk_texts ++ [text seg])
          (current_duration + seg_duration)%float rest' in
      match chunk_segments with
      | [] => appended
      | _ :: _ =>
          if (current_duration <? min_duration)%float then appended
          else
            let new_duration := (current_duration + seg_duration)%float in
            if (target_duration <=? current_duration)%float
               || (max_duration <? new_duration)%float
            then (chunk_segments, chunk_texts, current_duration, rest)
            else appended
      end
  end.

(** The record built when a chunk is closed; [lst] is [chunk_segments[-1]]. *)
Definition close_chunk (chunk_id : nat) (chunk_start : float) (lst : Segment)
    (chunk_segments : list Segment) (chunk_texts : list string) : Chunk :=
  let chunk_end := (start lst + duration lst)%float in
  {| chunk_id := chunk_id;
     c_start := chunk_start;
     c_end := chunk_end;
     c_duration := (chunk_end - chunk_start)%float;
     c_text := String.concat " " chunk_texts;
     c_segments := length chunk_segments |}.

(** The outer [while i < len(segments)] loop.  Every emitted record is paired
    with the [chunk_segments] list it was built from.  [last chunk_segments]
    is both the test [if chunk_segments:] and [chunk_segments[-1]].  [fuel]
    bounds the number of iterations; [length rest] is always enough
    ([chunk_loop_partition], [chunk_loop_fuel]). *)
Fixpoint chunk_loop (fuel : nat) (min_duration max_duration : float)
    (rnd : Rand) (chunk_id : nat) (rest : list Segment)
  : list (Chunk * list Segment) :=
  match fuel, rest with
  | S fuel', seg0 :: _ =>
      let '(target_duration, rnd') := draw rnd in
      let chunk_start := start seg0 in
      let '(chunk_segments, chunk_texts, _, rest') :=
        inner_loop min_duration max_duration target_duration [] [] 0%float rest in
      match last chunk_segments with
      | Some lst =>
          (close_chunk chunk_id chunk_start lst chunk_segments chunk_texts,
           chunk_segments)
          :: chunk_loop fuel' min_duration max_duration rnd' (S chunk_id) rest'
      | None => chunk_loop fuel' min_duration max_duration rnd' chunk_id rest'
      end
  | _, _ => []
  end.

Definition chunk_trace (segments : list Segment)
    (min_duration max_duration : float) (rnd : Rand)
  : list (Chunk * list Segment) :=
  match segments with
  | [] => []
  | _ :: _ => chunk_loop (length segments) min_duration max_duration rnd 0 segments
  end.

(** [chunk_smart_duration(segments, min_duration, max_duration)]: the list
    [chunks] that is returned. *)
Definition chunk_smart_duration (segments : list Segment)
    (min_duration max_duration : float) (rnd : Rand) : list Chunk :=
  (chunk_trace segments min_duration max_duration rnd).*1.

(** The [chunk_segments] list behind each returned chunk, in chunk order. *)
Definition chunk_constituents (segments : list Segment)
    (min_duration max_duration : float) (rnd : Rand) : list (list Segment) :=
  (chunk_trace segments min_duration max_duration rnd).*2.

(** [current_duration] after the inner loop has added the durations of
    [taken] to it, one [current_duration += seg_duration] at a time. *)
Definition add_durations (current_duration : float) (taken : list Segment) : float :=
  foldl (λ cur seg, (cur + duration seg)%float) current_duration taken.

(** The accumulated duration of a whole chunk: [current_duration] starts at 0. *)
Definition accumulated (chunk_segments : list Segment) : float :=
  add_durations 0%float chunk_segments.

(** What one run of the inner loop, started on an empty chunk, does to
    [rest = segments[i:]]: it takes the non-empty prefix [taken]; when it
    stops before the end, it stopped at the [break]; and the last segment it
    took passed one of the three admission rules. *)
Definition stopped_at_break (min_duration max_duration target_duration : float)
    (taken rest' : list Segment) : Prop :=
  ∀ seg, head rest' = Some seg →
    (accumulated taken <? min_duration)%float = false
    ∧ (target_duration <=? accumulated taken)%float
      || (max_duration <? accumulated taken + duration seg)%float = true.

Definition last_accepted (min_duration max_duration target_duration : float)
    (taken : list Segment) : Prop :=
  ∀ pre lst, taken = pre ++ [lst] →
    pre = []
    ∨ (accumulated pre <? min_duration)%float = true
    ∨ ((target_duration <=? accumulated pre)%float = false
       ∧ (max_duration <? accumulated taken)%float = false).

(** The record [c] at position [k] of the output is the one the code builds
    from the constituent segments [g]. *)
Definition chunk_record (k : nat) (c : Chunk) (g : list Segment) : Prop :=
  ∃ fst_seg lst,
    head g = Some fst_seg ∧ last g = Some lst
    ∧ chunk_id c = k
    ∧ c_start c = start fst_seg
    ∧ c_end c = (start lst + duration lst)%float
    ∧ c_duration c = (c_end c - c_start c)%float
    ∧ c_text c = String.concat " " (text <$> g)
    ∧ c_segments c = length g
    ∧ 1 ≤ c_segments c.

(** A float that is not NaN. *)
Definition is_number (x : float) : Prop := Prim2SF x ≠ S754_nan.

(** "The chunk consists of exactly one oversized segment". *)
Definition oversized_single (max_duration : float) (g : list Segment) : Prop :=
  ∃ seg, g = [seg] ∧ (max_duration <? duration seg)%float = true.

(** The floor/ceiling property read on the recorded ['duration'] field: every
    chunk but the last is at least [min_duration] long or a single oversized
    segment, and at most [max_duration] long or a single oversized segment. *)
Definition floor_ceiling_recorded (segments : list Segment)
    (min_duration max_duration : float) (rnd : Rand) : Prop :=
  ∀ k c g,
    chunk_trace segments min_duration max_duration rnd !! k = Some (c, g) →
    S k < length (chunk_trace segments min_duration max_duration rnd) →
    ((min_duration <=? c_duration c)%float = true ∨ oversized_single max_duration g)
    ∧ ((c_duration c <=? max_duration)%float = true ∨ oversized_single max_duration g).

(** ** Configuration *)

Definition MIN_CHUNK_DURATION : float := 20.
Definition MAX_CHUNK_DURATION : float := 30.
Definition START_INDEX : nat := 0.
Definition BATCH_SIZE : nat := 50.
Definition SAVE_EVERY : nat := 5.

(** ** Completion tracking *)

(** An entry of [os.listdir(OUTPUT_DIR)], with the answer of
    [os.path.isdir] for it. *)
Record DirEntry := {
  name : string;
  is_dir : bool
}.

(** [downloaded] after reading the progress file.  [progress_file] is [None]
    when the file does not exist; otherwise it holds the parsed document's
    ['completed'] list, or [None] when the key is absent
    ([progress.get('completed', [])]). *)
Definition load_completed (progress_file : option (option (list string)))
  : gset string :=
  match progress_file with
  | Some progress => list_to_set (default [] progress)
  | None => ∅
  end.

(** [existing_folders]: the loop over [os.listdir(OUTPUT_DIR)]; [output_dir]
    is [None] when the path does not exist. *)
Definition existing_folders (output_dir : option (list DirEntry)) : gset string :=
  match output_dir with
  | Some listing =>
      foldl (λ (folders : gset string) item,
               if is_dir item && negb (String.eqb (name item) ".git")
               then {[name item]} ∪ folders
               else folders)
            ∅ listing
  | None => ∅
  end.

(** [downloaded = downloaded.union(existing_folders)]. *)
Definition reconcile (progress_file : option (option (list string)))
    (output_dir : option (list DirEntry)) : gset string :=
  load_completed progress_file ∪ existing_folders output_dir.

Definition remaining_videos (all_video_ids : list string)
    (downloaded : gset string) : list string :=
  filter (λ vid, vid ∉ downloaded) all_video_ids.

(** [remaining_videos[START_INDEX:START_INDEX + BATCH_SIZE]]. *)
Definition batch_videos (all_video_ids : list string)
    (downloaded : gset string) : list string :=
  take BATCH_SIZE (drop START_INDEX (remaining_videos all_video_ids downloaded)).

(** ** The progress file on disk *)

(** The dict handed to [json.dump]. *)
Record Progress := {
  completed : list string;
  total : nat;
  timestamp : float
}.

(** What [with open(progress_file, 'w') as f: json.dump(..., f)] does to the
    file, one operation at a time: [open(.., 'w')] creates or truncates it,
    [json.dump] writes the encoder's pieces one after the other, and leaving
    the [with] block closes it.  A piece is taken to reach the file when it is
    written; buffering can only make it reach the file later. *)
Inductive FileOp :=
  | OpenW
  | Write (piece : string)
  | Close.

(** The content of a file ([None]: no such file) after one operation. *)
Definition apply_op (content : option string) (op : FileOp) : option string :=
  match op with
  | OpenW => Some ""
  | Write piece => Some (default "" content +:+ piece)
  | Close => content
  end.

Definition save_ops (json_dump : Progress → list string) (p : Progress)
  : list FileOp :=
  OpenW :: (Write <$> json_dump p) ++ [Close].

(** A save that runs to its end. *)
Definition save_progress (json_dump : Progress → list string) (p : Progress)
    (content : option string) : option string :=
  foldl apply_op content (save_ops json_dump p).

(** A save interrupted after its first [n] operations. *)
Definition interrupted_save (json_dump : Progress → list string) (p : Progress)
    (n : nat) (content : option string) : option string :=
  foldl apply_op content (take n (save_ops json_dump p)).

(** Write-new-then-replace, as an observable property: a save interrupted
    after it has begun and before it has ended leaves the old content. *)
Definition checkpoint_atomic (json_dump : Progress → list string) : Prop :=
  ∀ p old n,
    0 < n < length (save_ops json_dump p) →
    interrupted_save json_dump p n (Some old) = Some old.

(** ** Downloading one transcript *)

(** What [api.fetch(video_id, languages=['bn'])] does: raise an exception
    whose [str] is [error_msg], or return the snippets. *)
Inductive Fetched :=
  | Raises (error_msg : string)
  | Transcript (segments : list Segment).

(** The collaborators of a run.  [fetch] and [store_fault] take the number of
    downloads attempted before, so that they may answer differently on a later
    call.  [store_fault] is the text of the exception raised while the
    directory and files of a transcript are written, if any.  [clock] gives the
    successive results of [time.time()], [json_dump] the pieces [json.dump]
    writes. *)
Record Env := {
  fetch : nat → string → Fetched;
  store_fault : nat → string → option string;
  clock : nat → float;
  json_dump : Progress → list string
}.

(** The dict returned by [download_transcript_chunks]: ['success'] with
    ['chunks'], or failure with ['error'].  (['avg_chunk_duration'] is only
    printed and is left out.) *)
Inductive Result :=
  | Success (chunks : nat)
  | Failure (error : string).

(** What is printed, as far as it names identifiers, counts and errors. *)
Inductive Line :=
  | Downloading (total_done : nat) (video_id : string)
  | SuccessLine (chunks : nat)
  | RateLimitedLine
  | ErrorLine (error : string)
  | SavedLine (total_done : nat).

(** The state of a run: the script's variables [downloaded], [processed],
    [rate_limited]; the randomness source; the progress file's content; the
    transcripts written to [OUTPUT_DIR]; and, for the record, the identifiers
    handed to [api.fetch] in call order, the lines printed, and the number of
    [time.time()] calls made. *)
Record Run := {
  downloaded : gset string;
  processed : nat;
  rate_limited : bool;
  rnd : Rand;
  progress_file : option string;
  stored : list (string * list Chunk);
  attempts : list string;
  console : list Line;
  ticks : nat
}.

(** [needle in hay]. *)
Fixpoint contains (needle hay : string) : bool :=
  String.prefix needle hay
  || match hay with
     | EmptyString => false
     | String _ hay' => contains needle hay'
     end.

(** The test of the [except] branch. *)
Definition rate_limit_text (error_msg : string) : bool :=
  contains "429" error_msg || contains "Too Many Requests" error_msg.

(** The [except Exception as e] branch; [error_msg[:100]] keeps the first 100
    characters. *)
Definition on_exception (error_msg : string) : Result :=
  if rate_limit_text error_msg then Failure "RateLimited"
  else Failure (String.substring 0 100 error_msg).

Definition print (line : Line) (st : Run) : Run :=
  {| downloaded := downloaded st; processed := processed st;
     rate_limited := rate_limited st; rnd := rnd st;
     progress_file := progress_file st; stored := stored st;
     attempts := attempts st; console := console st ++ [line];
     ticks := ticks st |}.

(** [download_transcript_chunks(video_id)], as the [call]-th download of the
    run (counting from 0). *)
Definition download_transcript_chunks (env : Env) (call : nat)
    (video_id : string) (st : Run) : Result * Run :=
  let st :=
    {| downloaded := downloaded st; processed := processed st;
       rate_limited := rate_limited st; rnd := rnd st;
       progress_file := progress_file st; stored := stored st;
       attempts := attempts st ++ [video_id]; console := console st;
       ticks := ticks st |} in
  match fetch env call video_id with
  | Raises error_msg => (on_exception error_msg, st)
  | Transcript [] => (Failure "No segments", st)
  | Transcript segments =>
      let chunks :=
        chunk_smart_duration segments MIN_CHUNK_DURATION MAX_CHUNK_DURATION
          (rnd st) in
      let drawn k := rnd st (length chunks + k) in
      match store_fault env call video_id with
      | Some error_msg =>
          (on_exception error_msg,
           {| downloaded := downloaded st; processed := processed st;
              rate_limited := rate_limited st; rnd := drawn;
              progress_file := progress_file st; stored := stored st;
              attempts := attempts st; console := console st;
              ticks := ticks st |})
      | None =>
          (Success (length chunks),
           {| downloaded := downloaded st; processed := processed st;
              rate_limited := rate_limited st; rnd := drawn;
              progress_file := progress_file st;
              stored := stored st ++ [(video_id, chunks)];
              attempts := attempts st; console := console st;
              ticks := ticks st |})
      end
  end.

(** ** The main loop *)

(** The two places that write the progress file do the same thing. *)
Definition save (env : Env) (total : nat) (st : Run) : Run :=
  {| downloaded := downloaded st; processed := processed st;
     rate_limited := rate_limited st; rnd := rnd st;
     progress_file :=
       save_progress (json_dump env)
         {| completed := elements (downloaded st); total := total;
            timestamp := clock env (ticks st) |}
         (progress_file st);
     stored := stored st; attempts := attempts st; console := console st;
     ticks := S (ticks st) |}.

(** The end of an iteration that did not [break]: [processed += 1], the
    periodic save, and the pause before the next identifier, which draws one
    sample.  [n] is [len(batch_videos)], [i] the loop index. *)
Definition after_download (env : Env) (total n i total_done : nat) (st : Run)
  : Run :=
  let st :=
    {| downloaded := downloaded st; processed := S (processed st);
       rate_limited := rate_limited st; rnd := rnd st;
       progress_file := progress_file st; stored := stored st;
       attempts := attempts st; console := console st; ticks := ticks st |} in
  let st :=
    if processed st mod SAVE_EVERY =? 0
    then print (SavedLine total_done) (save env total st)
    else st in
  if i <? n - 1 then
    {| downloaded := downloaded st; processed := processed st;
       rate_limited := rate_limited st; rnd := snd (draw (rnd st));
       progress_file := progress_file st; stored := stored st;
       attempts := attempts st; console := console st; ticks := ticks st |}
  else st.

(** [for i, video_id in enumerate(batch_videos)], from index [i] on, [batch]
    being [batch_videos[i:]]; [total] is [len(all_video_ids)]. *)
Fixpoint main_loop (env : Env) (total n i : nat) (batch : list string)
    (st : Run) : Run :=
  match batch with
  | [] => st
  | video_id :: batch' =>
      let total_done := size (downloaded st) + processed st + 1 in
      let st := print (Downloading total_done video_id) st in
      let '(result, st) := download_transcript_chunks env i video_id st in
      match result with
      | Success chunks =>
          let st := print (SuccessLine chunks) st in
          let st :=
            {| downloaded := {[video_id]} ∪ downloaded st;
               processed := processed st; rate_limited := rate_limited st;
               rnd := rnd st; progress_file := progress_file st;
               stored := stored st; attempts := attempts st;
               console := console st; ticks := ticks st |} in
          main_loop env total n (S i) batch'
            (after_download env total n i total_done st)
      | Failure error =>
          if String.eqb error "RateLimited" then
            let st := print RateLimitedLine st in
            {| downloaded := downloaded st; processed := processed st;
               rate_limited := true; rnd := rnd st;
               progress_file := progress_file st; stored := stored st;
               attempts := attempts st; console := console st;
               ticks := ticks st |}
          else
            let st := print (ErrorLine error) st in
            main_loop env total n (S i) batch'
              (after_download env total n i total_done st)
      end
  end.

(** The state before the main loop: [processed = 0], [rate_limited = False]. *)
Definition initial (downloaded : gset string) (disk : option string)
    (rnd0 : Rand) : Run :=
  {| downloaded := downloaded; processed := 0; rate_limited := false;
     rnd := rnd0; progress_file := disk; stored := []; attempts := [];
     console := []; ticks := 0 |}.

(** The script from the reconciliation on: the batch, the early [exit(0)]
    when it is empty, the main loop, the final save. *)
Definition script (env : Env) (all_video_ids : list string)
    (progress : option (option (list string)))
    (output_dir : option (list DirEntry))
    (disk : option string) (rnd0 : Rand) : Run :=
  let downloaded := reconcile progress output_dir in
  let batch := batch_videos all_video_ids downloaded in
  let st := initial downloaded disk rnd0 in
  match batch with
  | [] => st
  | _ :: _ =>
      save env (length all_video_ids)
        (main_loop env (length all_video_ids) (length batch) 0 batch st)
  end.

(** ** What the collaborators make of an identifier *)

(** The text of the exception raised inside the [try] block of the [call]-th
    download, if one is raised. *)
Definition raised (env : Env) (call : nat) (video_id : string) : option string :=
  match fetch env call video_id with
  | Raises error_msg => Some error_msg
  | Transcript [] => None
  | Transcript (_ :: _) => store_fault env call video_id
  end.

(** The download fails with a rate-limit condition. *)
Definition rate_limit_failure (env : Env) (call : nat) (video_id : string) : bool :=
  match raised env call video_id with
  | Some error_msg => rate_limit_text error_msg
  | None => false
  end.

(** The download returns ['success': True]. *)
Definition succeeds (env : Env) (call : nat) (video_id : string) : bool :=
  match fetch env call video_id with
  | Raises _ | Transcript [] => false
  | Transcript (_ :: _) =>
      match store_fault env call video_id with Some _ => false | None => true end
  end.

(** The error the main loop sees for a failed download. *)
Definition reported_error (env : Env) (call : nat) (video_id : string)
  : option string :=
  match fetch env call video_id, raised env call video_id with
  | _, Some error_msg =>
      Some (if rate_limit_text error_msg then "RateLimited"
            else String.substring 0 100 error_msg)
  | Transcript [], None => Some "No segments"
  | _, None => None
  end.

(** The main loop leaves at the [break] after this download. *)
Definition stops_loop (env : Env) (call : nat) (video_id : string) : bool :=
  match reported_error env call video_id with
  | Some error => String.eqb error "RateLimited"
  | None => false
  end.

(** The identifiers of [batch], downloaded from call [i] on, whose download
    succeeds. *)
Fixpoint successes (env : Env) (i : nat) (batch : list string) : list string :=
  match batch with
  | [] => []
  | video_id :: batch' =>
      (if succeeds env i video_id then [video_id] else [])
      ++ successes env (S i) batch'
  end.

(** The errors the main loop sees for [batch], downloaded from call [i] on. *)
Fixpoint reported_errors (env : Env) (i : nat) (batch : list string) : list string :=
  match batch with
  | [] => []
  | video_id :: batch' =>
      option_list (reported_error env i video_id) ++ reported_errors env (S i) batch'
  end.

(** The errors printed by the ["Error: ..."] lines. *)
Fixpoint error_lines (console : list Line) : list string :=
  match console with
  | [] => []
  | ErrorLine error :: console' => error :: error_lines console'
  | _ :: console' => error_lines console'
  end.

(** What the claims about a run observe of its state: the completion set,
    the counter, the flag, the identifiers fetched, the identifiers whose
    transcript was written, and the errors printed. *)
Definition view (st : Run)
  : gset string * nat * bool * list string * list string * list string :=
  (downloaded st, processed st, rate_limited st, attempts st, (stored st).*1,
   error_lines (console st)).

(** The pieces written to a file, one after the other. *)
Definition joined (pieces : list string) : string := foldr String.app "" pieces.

(** ** Sample transcripts *)

Definition seg (s d : float) (t : string) : Segment :=
  {| start := s; duration := d; text := t |}.

(** The transcript of the worked example. *)
Definition example_segments : list Segment :=
  [seg 0 10 "a"; seg 10 10 "b"; seg 20 5 "c"; seg 25 5 "d"; seg 30 10 "e"].

(** Short segments separated by silence. *)
Definition gap_segments : list Segment :=
  [seg 0 10 "a"; seg 100 10 "b"; seg 200 10 "c"; seg 300 10 "d"].

(** Back-to-back segments, none longer than [max_duration = 30]. *)
Definition long_second_segments : list Segment :=
  [seg 0 15 "a"; seg 15 25 "b"; seg 40 10 "c"].

(** Overlapping captions, as automatic captioning produces them. *)
Definition overlapping_segments : list Segment :=
  [seg 0 10 "a"; seg 5 10 "b"; seg 10 10 "c"].

(** A mocked randomness source: [t] first, then [t'] for ever. *)
Definition samples (t t' : float) : Rand :=
  λ k, match k with O => t | S _ => t' end.

(** ** Sample collaborators *)

(** A [json.dump] stand-in that writes the completed identifiers between
    brackets. *)
Definition sample_dump (p : Progress) : list string :=
  "[" :: completed p ++ ["]"].

(** Every fetch returns the transcript of the worked example, except the third
    (call 2), which is answered with HTTP status 429. *)
Definition third_is_throttled : Env :=
  {| fetch := λ call _,
       if call =? 2 then Raises "HTTP Error 429: Too Many Requests"
       else Transcript example_segments;
     store_fault := λ _ _, None;
     clock := λ _, 0%float;
     json_dump := sample_dump |}.


Definition ten_videos : list string :=
  ["v1"; "v2"; "v3"; "v4"; "v5"; "v6"; "v7"; "v8"; "v9"; "v10"].

(** ** Notions used by the further properties *)

(** A transcript without gaps or overlaps: every segment starts where the one
    before it ends. *)
Fixpoint contiguous (segments : list Segment) : Prop :=
  match segments with
  | s :: ((s' :: _) as rest) =>
      start s' = (start s + duration s)%float ∧ contiguous rest
  | _ => True
  end.

(** A short transcript: two segments of 5 s. *)
Definition short_segments : list Segment := [seg 0 5 "a"; seg 5 5 "b"].

(** A transcript that opens with a segment longer than [max_duration = 30]. *)
Definition oversized_first_segments : list Segment :=
  [seg 0 45 "a"; seg 45 5 "b"; seg 50 5 "c"].

(** Some download of [batch], made from call [i] on, has the main loop leave
    at the [break]. *)
Fixpoint stops_within (env : Env) (i : nat) (batch : list string) : bool :=
  match batch with
  | [] => false
  | video_id :: batch' => stops_loop env i video_id || stops_within env (S i) batch'
  end.

(** Every fetch returns the transcript of the worked example. *)
Definition all_succeed : Env :=
  {| fetch := λ _ _, Transcript example_segments;
     store_fault := λ _ _, None;
     clock := λ _, 0%float;
     json_dump := sample_dump |}.

(** A transcript whose first segment has a duration that is not a number. *)
Definition nan_segments : list Segment :=
  [seg 0 PrimFloat.nan "a"; seg 1 25 "b"; seg 26 25 "c"].

(** Case analysis on the comparisons inside [SFcompare]. *)
Ltac compare_cases :=
  repeat match goal with
  | s : bool |- _ => destruct s
  | H : context [Pos.compare_cont Eq ?a ?b] |- _ =>
      change (Pos.compare_cont Eq a b) with (Pos.compare a b) in H;
      destruct (Pos.compare_spec a b); simpl in H
  | H : context [(?a ?= ?b)%Z] |- _ => destruct (Z.compare_spec a b); simpl in H
  | |- context [Pos.compare_cont Eq ?a ?b] =>
      change (Pos.compare_cont Eq a b) with (Pos.compare a b);
      destruct (Pos.compare_spec a b); simpl
  | |- context [(?a ?= ?b)%Z] => destruct (Z.compare_spec a b); simpl
  end.

(** ** The inner loop *)

Lemma add_durations_snoc cur pre seg :
  add_durations cur (pre ++ [seg]) = (add_durations cur pre + duration seg)%float.
Proof. unfold add_durations. by rewrite foldl_app. Qed.

(** The exit state of the inner loop in terms of the prefix it consumed. *)
Lemma inner_loop_taken mn mx tg rest : ∀ cs ts cur,
  ∃ taken rest',
    rest = taken ++ rest'
    ∧ inner_loop mn mx tg cs ts cur rest
      = (cs ++ taken, ts ++ (text <$> taken), add_durations cur taken, rest')
    ∧ (cs = [] → rest ≠ [] → taken ≠ [])
    ∧ (∀ seg, head rest' = Some seg →
         cs ++ taken ≠ []
         ∧ (add_durations cur taken <? mn)%float = false
         ∧ (tg <=? add_durations cur taken)%float
           || (mx <? add_durations cur taken + duration seg)%float = true)
    ∧ (∀ pre lst, taken = pre ++ [lst] →
         cs ++ pre = []
         ∨ (add_durations cur pre <? mn)%float = true
         ∨ ((tg <=? add_durations cur pre)%float = false
            ∧ (mx <? add_durations cur taken)%float = false)).
Proof.
  induction rest as [|seg rest IH]; intros cs ts cur.
  { exists [], []. rewrite !app_nil_r. split_and!; try done.
    intros pre lst H. by destruct pre. }
  assert (Happ : ∀ (Hadm : cs = [] ∨ (cur <? mn)%float = true
                          ∨ ((tg <=? cur)%float = false
                             ∧ (mx <? cur + duration seg)%float = false)),
    ∃ taken rest',
      seg :: rest = taken ++ rest'
      ∧ inner_loop mn mx tg (cs ++ [seg]) (ts ++ [text seg]) (cur + duration seg)%float rest
        = (cs ++ taken, ts ++ (text <$> taken), add_durations cur taken, rest')
      ∧ (cs = [] → seg :: rest ≠ [] → taken ≠ [])
      ∧ (∀ seg', head rest' = Some seg' →
           cs ++ taken ≠ []
           ∧ (add_durations cur taken <? mn)%float = false
           ∧ (tg <=? add_durations cur taken)%float
             || (mx <? add_durations cur taken + duration seg')%float = true)
      ∧ (∀ pre lst, taken = pre ++ [lst] →
           cs ++ pre = []
           ∨ (add_durations cur pre <? mn)%float = true
           ∨ ((tg <=? add_durations cur pre)%float = false
              ∧ (mx <? add_durations cur taken)%float = false))).
  { intros Hadm.
    destruct (IH (cs ++ [seg]) (ts ++ [text seg]) (cur + duration seg)%float)
      as (taken & rest' & -> & Heq & _ & Hbrk & Hlast).
    exists (seg :: taken), rest'. rewrite Heq, <- !app_assoc. simpl.
    split_and!; try done.
    - intros seg' Hh. destruct (Hbrk seg' Hh) as (Hne & Hmin & Hstop).
      split_and!; try done. by destruct cs.
    - intros pre lst Hpre. destruct pre as [|p pre]; simpl in Hpre.
      + injection Hpre as <- ->. rewrite app_nil_r. simpl. naive_solver.
      + injection Hpre as <- ->.
        destruct (Hlast pre lst eq_refl) as [Hnil | H]; [|by right].
        by destruct cs. }
  simpl. destruct cs as [|c cs0].
  { apply Happ. by left. }
  destruct (cur <? mn)%float eqn:Hmin.
  { apply Happ. right. by left. }
  destruct (tg <=? cur)%float eqn:Htg; simpl.
  { exists [], (seg :: rest). rewrite !app_nil_r. split_and!; try done.
    - intros seg' [= <-]. simpl. by rewrite Hmin, Htg.
    - intros pre lst H. by destruct pre. }
  destruct (mx <? cur + duration seg)%float eqn:Hmx.
  { exists [], (seg :: rest). rewrite !app_nil_r. split_and!; try done.
    - intros seg' [= <-]. simpl. by rewrite Hmin, Htg, Hmx.
    - intros pre lst H. by destruct pre. }
  apply Happ. right. right. done.
Qed.

(** ** The outer loop *)

(** One iteration of the outer loop on a non-empty [segments[i:]]. *)
Lemma chunk_loop_step fuel mn mx rnd id seg0 rest0 :
  ∃ taken lst rest',
    seg0 :: rest0 = taken ++ rest'
    ∧ head taken = Some seg0
    ∧ last taken = Some lst
    ∧ stopped_at_break mn mx (rnd 0) taken rest'
    ∧ last_accepted mn mx (rnd 0) taken
    ∧ chunk_loop (S fuel) mn mx rnd id (seg0 :: rest0)
      = (close_chunk id (start seg0) lst taken (text <$> taken), taken)
        :: chunk_loop fuel mn mx (λ k, rnd (S k)) (S id) rest'.
Proof.
  destruct (inner_loop_taken mn mx (rnd 0) (seg0 :: rest0) [] [] 0%float)
    as (taken & rest' & Hsplit & Heq & Hne & Hbrk & Hlast).
  specialize (Hne eq_refl ltac:(done)).
  destruct (last taken) as [lst|] eqn:Hl; [|by apply last_None in Hl].
  exists taken, lst, rest'.
  unfold stopped_at_break, last_accepted, accumulated. split_and!.
  - done.
  - destruct taken; [done|]. by simplify_eq/=.
  - done.
  - intros seg Hseg. by destruct (Hbrk seg Hseg) as (_ & ? & ?).
  - intros pre l Hpre. destruct (Hlast pre l Hpre) as [?|[?|?]]; auto.
  - cbn [chunk_loop draw]. rewrite Heq. simpl. by rewrite Hl.
Qed.

Lemma chunk_loop_nil fuel mn mx rnd id : chunk_loop fuel mn mx rnd id [] = [].
Proof. by destruct fuel. Qed.

Lemma chunk_loop_partition fuel : ∀ mn mx rnd id rest,
  length rest ≤ fuel →
  concat (chunk_loop fuel mn mx rnd id rest).*2 = rest.
Proof.
  induction fuel as [|fuel IH]; intros mn mx rnd id rest Hlen.
  { destruct rest; [done | simpl in Hlen; lia]. }
  destruct rest as [|seg0 rest0]; [done|].
  destruct (chunk_loop_step fuel mn mx rnd id seg0 rest0)
    as (taken & lst & rest' & Hsplit & Hhd & _ & _ & _ & ->).
  cbn [fmap list_fmap concat snd]. rewrite Hsplit. f_equal.
  apply IH. apply (f_equal length) in Hsplit.
  rewrite length_app in Hsplit. simpl in *.
  destruct taken; [done | simpl in *; lia].
Qed.

(** [length segments] iterations are enough: more fuel changes nothing. *)
Lemma chunk_loop_fuel fuel : ∀ fuel' mn mx rnd id rest,
  length rest ≤ fuel → length rest ≤ fuel' →
  chunk_loop fuel mn mx rnd id rest = chunk_loop fuel' mn mx rnd id rest.
Proof.
  induction fuel as [|fuel IH]; intros fuel' mn mx rnd id rest H1 H2.
  { destruct rest; [by rewrite !chunk_loop_nil | simpl in H1; lia]. }
  destruct rest as [|seg0 rest0]; [by rewrite !chunk_loop_nil|].
  destruct fuel' as [|fuel']; [simpl in H2; lia|].
  destruct (inner_loop_taken mn mx (rnd 0) (seg0 :: rest0) [] [] 0%float)
    as (taken & rest' & Hsplit & Heq & Hne & _).
  specialize (Hne eq_refl ltac:(done)).
  cbn [chunk_loop draw]. rewrite Heq.
  apply (f_equal length) in Hsplit. rewrite length_app in Hsplit.
  assert (length rest' ≤ fuel ∧ length rest' ≤ fuel') as [??].
  { destruct taken; [done | simpl in *; lia]. }
  rewrite (IH fuel' mn mx _ id rest'), (IH fuel' mn mx _ (S id) rest') by done.
  done.
Qed.

Lemma chunk_loop_records fuel : ∀ mn mx rnd id rest k c g,
  chunk_loop fuel mn mx rnd id rest !! k = Some (c, g) →
  chunk_record (id + k) c g.
Proof.
  induction fuel as [|fuel IH]; intros mn mx rnd id rest k c g Hk.
  { by destruct rest. }
  destruct rest as [|seg0 rest0]; [done|].
  destruct (chunk_loop_step fuel mn mx rnd id seg0 rest0)
    as (taken & lst & rest' & _ & Hhd & Hl & _ & _ & Heq).
  rewrite Heq in Hk. destruct k as [|k]; simpl in Hk.
  - injection Hk as <- <-. exists seg0, lst. rewrite Nat.add_0_r.
    split_and!; try done. simpl. destruct taken; [done | simpl; lia].
  - apply IH in Hk. by rewrite Nat.add_succ_r.
Qed.

(** The outer loop reads one sample per emitted chunk and nothing else of
    [rnd]. *)
Lemma chunk_loop_ext fuel : ∀ mn mx rnd1 rnd2 id rest,
  (∀ k, k < length (chunk_loop fuel mn mx rnd1 id rest) → rnd1 k = rnd2 k) →
  chunk_loop fuel mn mx rnd1 id rest = chunk_loop fuel mn mx rnd2 id rest.
Proof.
  induction fuel as [|fuel IH]; intros mn mx rnd1 rnd2 id rest Hr; [done|].
  destruct rest as [|seg0 rest0]; [done|].
  destruct (inner_loop_taken mn mx (rnd1 0) (seg0 :: rest0) [] [] 0%float)
    as (taken & rest' & _ & Heq & Hne & _).
  specialize (Hne eq_refl ltac:(done)).
  destruct (last taken) as [lst|] eqn:Hl; [|by apply last_None in Hl].
  cbn [chunk_loop draw] in Hr |- *. rewrite Heq in Hr. cbn [app] in Hr.
  rewrite Hl in Hr. rewrite <- (Hr 0) by (simpl; lia).
  rewrite Heq. cbn [app]. rewrite Hl. f_equal.
  apply IH. intros k Hk. apply Hr. simpl. lia.
Qed.

(** ** Properties of [chunk_smart_duration] *)

Lemma trace_Forall2 {A B} (P : A → B → Prop) (l : list (A * B)) :
  (∀ k a b, l !! k = Some (a, b) → P a b) → Forall2 P l.*1 l.*2.
Proof.
  induction l as [|[a b] l IH]; intros H; simpl; constructor.
  - by apply (H 0).
  - apply IH. intros k. apply (H (S k)).
Qed.

Lemma chunk_trace_records segments mn mx rnd k c g :
  chunk_trace segments mn mx rnd !! k = Some (c, g) → chunk_record k c g.
Proof.
  unfold chunk_trace. destruct segments; [done|].
  apply (chunk_loop_records _ mn mx rnd 0).
Qed.

(** C1. Partition: the constituent segment lists of the chunks, concatenated
    in chunk order, are exactly the input segments (nothing omitted,
    duplicated, reordered or split); each returned record counts the segments
    of its non-empty constituent list.  This holds for all bounds and all
    samples, in particular for 0 < min_duration ≤ max_duration. *)
Theorem chunk_smart_duration_partition segments min_duration max_duration rnd :
  concat (chunk_constituents segments min_duration max_duration rnd) = segments
  ∧ Forall2 (λ c g, c_segments c = length g ∧ g ≠ [])
      (chunk_smart_duration segments min_duration max_duration rnd)
      (chunk_constituents segments min_duration max_duration rnd).
Proof.
  unfold chunk_constituents, chunk_smart_duration. split.
  - unfold chunk_trace. destruct segments as [|s l]; [done|].
    by apply chunk_loop_partition.
  - apply trace_Forall2. intros k c g Hk.
    apply chunk_trace_records in Hk as (f & l & Hf & _ & _ & _ & _ & _ & _ & Hn & _).
    split; [done|]. by destruct g.
Qed.

(** C8. Chunk record invariant: the record at position [k] of the output has
    [chunk_id = k], starts where its first constituent segment starts, ends at
    start + duration of its last constituent segment, has
    [duration = end - start], the space-joined texts of its constituents as
    text, and a segment count that is their number and at least 1. *)
Theorem chunk_record_invariant segments min_duration max_duration rnd k c :
  chunk_smart_duration segments min_duration max_duration rnd !! k = Some c →
  ∃ g, chunk_constituents segments min_duration max_duration rnd !! k = Some g
       ∧ chunk_record k c g.
Proof.
  unfold chunk_smart_duration, chunk_constituents. intros Hk.
  apply list_lookup_fmap_Some in Hk as ([c' g] & Hc & Hk). simpl in Hc. subst c'.
  exists g. split; [by rewrite list_lookup_fmap, Hk|].
  by eapply chunk_trace_records.
Qed.

(** C9. Determinism: two runs on the same segments and bounds whose randomness
    sources return the same target samples (as many as the first run draws,
    one per chunk) return identical chunk lists. *)
Theorem chunk_smart_duration_deterministic segments min_duration max_duration
    (rnd1 rnd2 : Rand) :
  (∀ k, k < length (chunk_smart_duration segments min_duration max_duration rnd1) →
        rnd1 k = rnd2 k) →
  chunk_smart_duration segments min_duration max_duration rnd1
  = chunk_smart_duration segments min_duration max_duration rnd2.
Proof.
  unfold chunk_smart_duration, chunk_trace. rewrite length_fmap. intros Hr.
  destruct segments as [|s l]; [done|]. f_equal. by apply chunk_loop_ext.
Qed.

Lemma chunk_record_invariant_witness :
  ∃ g, chunk_constituents example_segments 20 30 (λ _, 22%float) !! 1 = Some g
       ∧ chunk_record 1
           {| chunk_id := 1; c_start := 25; c_end := 40; c_duration := 15;
              c_text := "d e"; c_segments := 2 |} g.
Proof.
  apply (chunk_record_invariant example_segments 20 30 (λ _, 22%float) 1).
  reflexivity.
Defined.

Lemma chunk_smart_duration_deterministic_witness :
  chunk_smart_duration example_segments 20 30 (λ k, match k with O => 22 | S O => 28 | _ => 27 end%float)
  = chunk_smart_duration example_segments 20 30 (λ k, match k with O => 22 | S O => 28 | _ => 29 end%float).
Proof.
  apply (chunk_smart_duration_deterministic example_segments 20 30).
  intros k Hk. vm_compute in Hk.
  destruct k as [|[|k]]; [reflexivity | reflexivity | lia].
Defined.

(** ** The worked example *)

(** C6, as stated, fails: with a first target of 22 the first chunk is not
    a, b, c, d followed by a chunk that starts at e. *)
Lemma worked_example_not_abcd :
  ¬ ∃ tl more,
      chunk_constituents example_segments 20 30 (λ _, 22%float)
      = [seg 0 10 "a"; seg 10 10 "b"; seg 20 5 "c"; seg 25 5 "d"]
        :: (seg 30 10 "e" :: tl) :: more.
Proof. intros (tl & more & H). vm_compute in H. discriminate H. Qed.

(** C6, amended. With min 20, max 30 and a first target of 22, segment d is
    refused because the accumulated 25 s already reached the target: the first
    chunk is a, b, c (25 s) and the second chunk starts at d and holds d, e. *)
Theorem worked_example (rnd : Rand) :
  rnd 0 = 22%float →
  chunk_constituents example_segments 20 30 rnd
  = [[seg 0 10 "a"; seg 10 10 "b"; seg 20 5 "c"]; [seg 25 5 "d"; seg 30 10 "e"]]
  ∧ chunk_smart_duration example_segments 20 30 rnd
    = [ {| chunk_id := 0; c_start := 0; c_end := 25; c_duration := 25;
           c_text := "a b c"; c_segments := 3 |};
        {| chunk_id := 1; c_start := 25; c_end := 40; c_duration := 15;
           c_text := "d e"; c_segments := 2 |} ].
Proof.
  intros H.
  unfold chunk_constituents, chunk_smart_duration, chunk_trace, example_segments.
  cbn [length chunk_loop draw]. rewrite H. split; vm_compute; reflexivity.
Qed.

Lemma worked_example_witness :
  chunk_constituents example_segments 20 30 (samples 22 28)
  = [[seg 0 10 "a"; seg 10 10 "b"; seg 20 5 "c"]; [seg 25 5 "d"; seg 30 10 "e"]]
  ∧ chunk_smart_duration example_segments 20 30 (samples 22 28)
    = [ {| chunk_id := 0; c_start := 0; c_end := 25; c_duration := 25;
           c_text := "a b c"; c_segments := 3 |};
        {| chunk_id := 1; c_start := 25; c_end := 40; c_duration := 15;
           c_text := "d e"; c_segments := 2 |} ].
Proof. apply (worked_example (samples 22 28)). reflexivity. Defined.

(** ** Comparisons of binary64 floats *)

Lemma SFcompare_antisym x y : SFcompare y x = CompOpp <$> SFcompare x y.
Proof.
  destruct x as [sx|sx| |sx mx ex], y as [sy|sy| |sy my ey]; simpl;
    repeat match goal with s : bool |- _ => destruct s end; simpl; try done;
    f_equal; rewrite (Z.compare_antisym ey ex); destruct (ey ?= ex)%Z; simpl; try done.
  - f_equal. symmetry. apply (Pos.compare_cont_antisym mx my Eq).
  - symmetry. apply (Pos.compare_cont_antisym mx my Eq).
Qed.

Lemma compare_numbers x y c :
  SFcompare (Prim2SF x) (Prim2SF y) = Some c → is_number x ∧ is_number y.
Proof. unfold is_number. destruct (Prim2SF x), (Prim2SF y); simpl; naive_solver. Qed.

Lemma numbers_compare x y :
  is_number x → is_number y → is_Some (SFcompare (Prim2SF x) (Prim2SF y)).
Proof. unfold is_number. destruct (Prim2SF x), (Prim2SF y); simpl; naive_solver. Qed.

Lemma leb_numbers x y : (x <=? y)%float = true → is_number x ∧ is_number y.
Proof.
  rewrite leb_spec. unfold SFleb.
  destruct (SFcompare _ _) as [c|] eqn:H; [|done]. intros _. by eapply compare_numbers.
Qed.

Lemma ltb_numbers x y : (x <? y)%float = true → is_number x ∧ is_number y.
Proof.
  rewrite ltb_spec. unfold SFltb.
  destruct (SFcompare _ _) as [c|] eqn:H; [|done]. intros _. by eapply compare_numbers.
Qed.

Lemma add_number_l x y : is_number (x + y) → is_number x.
Proof. unfold is_number. rewrite add_spec. intros H Hx. apply H. by rewrite Hx. Qed.

(** [not (x < y)] gives [x >= y] when neither is NaN. *)
Lemma ltb_false_leb x y :
  is_number x → is_number y → (x <? y)%float = false → (y <=? x)%float = true.
Proof.
  intros Hx Hy. rewrite ltb_spec, leb_spec. unfold SFltb, SFleb.
  rewrite (SFcompare_antisym (Prim2SF x) (Prim2SF y)).
  destruct (numbers_compare x y Hx Hy) as [c ->]. by destruct c.
Qed.

(** ** Floor and ceiling *)

(** Chunk [k] was closed under target [rnd k]: its last segment passed an
    admission rule, and unless it is the last chunk the loop left at the
    [break]. *)
Lemma chunk_loop_bounds fuel : ∀ mn mx rnd id rest k c g,
  chunk_loop fuel mn mx rnd id rest !! k = Some (c, g) →
  last_accepted mn mx (rnd k) g
  ∧ (S k < length (chunk_loop fuel mn mx rnd id rest) →
     ∃ rest', stopped_at_break mn mx (rnd k) g rest' ∧ rest' ≠ []).
Proof.
  induction fuel as [|fuel IH]; intros mn mx rnd id rest k c g Hk.
  { by destruct rest. }
  destruct rest as [|seg0 rest0]; [done|].
  destruct (chunk_loop_step fuel mn mx rnd id seg0 rest0)
    as (taken & lst & rest' & _ & _ & _ & Hbrk & Hlast & Heq).
  rewrite Heq in Hk |- *. destruct k as [|k]; simpl in Hk.
  - injection Hk as <- <-. split; [done|]. intros Hlen.
    exists rest'. split; [done|]. intros ->.
    rewrite chunk_loop_nil in Hlen. simpl in Hlen. lia.
  - destruct (IH _ _ _ _ _ _ _ _ Hk) as [Hl Hb]. split; [done|].
    intros Hlen. apply Hb. simpl in Hlen. lia.
Qed.

(** C2, as stated, fails on the recorded ['duration'] field: silence between
    segments makes a three-segment chunk 210 s long; a second segment admitted
    below the floor makes a two-segment chunk 40 s long; overlapping captions
    make a two-segment chunk 15 s long.  None of these chunks is last. *)
Lemma floor_ceiling_recorded_fails :
  ¬ floor_ceiling_recorded gap_segments 20 30 (λ _, 22%float)
  ∧ ¬ floor_ceiling_recorded long_second_segments 20 30 (λ _, 22%float)
  ∧ ¬ floor_ceiling_recorded overlapping_segments 20 30 (λ _, 20%float).
Proof.
  split_and!; intros H.
  - destruct (H 0 _ _ eq_refl ltac:(vm_compute; lia)) as [_ [Hc|(s & Hs & _)]];
      vm_compute in Hc || vm_compute in Hs; discriminate.
  - destruct (H 0 _ _ eq_refl ltac:(vm_compute; lia)) as [_ [Hc|(s & Hs & _)]];
      vm_compute in Hc || vm_compute in Hs; discriminate.
  - destruct (H 0 _ _ eq_refl ltac:(vm_compute; lia)) as [[Hc|(s & Hs & _)] _];
      vm_compute in Hc || vm_compute in Hs; discriminate.
Qed.

(** C2, amended. For bounds with min_duration ≤ max_duration, and with the
    duration of a chunk read as the accumulated duration the loop adds up over
    its segments: every chunk but the last has accumulated at least
    [min_duration]; and the accumulated duration of any chunk does not exceed
    [max_duration] unless its last segment was admitted unconditionally, the
    chunk being a single segment or still below [min_duration] before it. *)
Theorem floor_ceiling_accumulated segments min_duration max_duration rnd k g :
  (min_duration <=? max_duration)%float = true →
  chunk_constituents segments min_duration max_duration rnd !! k = Some g →
  (S k < length (chunk_constituents segments min_duration max_duration rnd) →
   (min_duration <=? accumulated g)%float = true)
  ∧ ((max_duration <? accumulated g)%float = false
     ∨ ∃ pre lst, g = pre ++ [lst]
         ∧ (pre = [] ∨ (accumulated pre <? min_duration)%float = true)).
Proof.
  intros Hmm Hk. unfold chunk_constituents in *. rewrite length_fmap.
  apply list_lookup_fmap_Some in Hk as ([c g'] & Hg & Hk). simpl in Hg. subst g'.
  pose proof (chunk_trace_records _ _ _ _ _ _ _ Hk) as (f & l & _ & Hl & _).
  unfold chunk_trace in *. destruct segments as [|s0 segs]; [done|].
  apply chunk_loop_bounds in Hk as [Hlast Hbrk]. split.
  - intros Hlen. destruct (Hbrk Hlen) as (rest' & Hstop & Hne).
    destruct rest' as [|nxt rest']; [done|].
    destruct (Hstop nxt eq_refl) as [Hmin Hor].
    apply ltb_false_leb; [|by apply leb_numbers in Hmm as []|done].
    apply orb_true_iff in Hor as [Ht|Hx].
    + by apply leb_numbers in Ht as [].
    + apply ltb_numbers in Hx as [_ Hx]. by apply add_number_l in Hx.
  - apply last_Some in Hl as [pre ->].
    destruct (Hlast pre l eq_refl) as [?|[?|[_ ?]]]; [right|right|left]; eauto.
Qed.

Lemma floor_ceiling_accumulated_witness :
  (1 < length (chunk_constituents long_second_segments 20 30 (λ _, 22%float)) →
   (20 <=? accumulated [seg 0 15 "a"; seg 15 25 "b"])%float = true)
  ∧ ((30 <? accumulated [seg 0 15 "a"; seg 15 25 "b"])%float = false
     ∨ ∃ pre lst, [seg 0 15 "a"; seg 15 25 "b"] = pre ++ [lst]
         ∧ (pre = [] ∨ (accumulated pre <? 20)%float = true)).
Proof.
  apply (floor_ceiling_accumulated long_second_segments 20 30 (λ _, 22%float) 0);
    reflexivity.
Defined.

(** ** Completion tracking *)

Lemma existing_folders_fold (listing : list DirEntry) : ∀ (folders : gset string) x,
  x ∈ foldl (λ (folders : gset string) item,
               if is_dir item && negb (String.eqb (name item) ".git")
               then {[name item]} ∪ folders
               else folders)
            folders listing
  ↔ x ∈ folders
    ∨ ∃ item, item ∈ listing ∧ name item = x ∧ is_dir item = true ∧ x ≠ ".git".
Proof.
  induction listing as [|item listing IH]; intros folders x; simpl.
  { split; [by left|]. intros [?|(item & Hin & _)]; [done|]. by apply elem_of_nil in Hin. }
  rewrite IH. split.
  - intros [Hx|(it & Hin & ?)].
    + destruct (is_dir item) eqn:Hd, (String.eqb (name item) ".git") eqn:Hg;
        simpl in Hx; try by left.
      apply elem_of_union in Hx as [Hx%elem_of_singleton|Hx]; [|by left].
      right. exists item. split_and!; [by left|done|done|].
      subst x. by apply String.eqb_neq.
    + right. exists it. split; [by right|done].
  - intros [Hx|(it & Hin & Hn & Hd & Hg)].
    + left. destruct (_ && _); [|done]. apply elem_of_union. by right.
    + apply elem_of_cons in Hin as [->|Hin]; [|right; by exists it].
      left. rewrite Hd, Hn. apply String.eqb_neq in Hg. rewrite Hg. simpl.
      apply elem_of_union. left. by apply elem_of_singleton.
Qed.

Lemma elem_of_existing_folders output_dir x :
  x ∈ existing_folders output_dir
  ↔ ∃ listing item, output_dir = Some listing ∧ item ∈ listing
      ∧ name item = x ∧ is_dir item = true ∧ x ≠ ".git".
Proof.
  destruct output_dir as [listing|]; simpl.
  - rewrite existing_folders_fold. split.
    + intros [Hx|(item & ?)]; [by apply elem_of_empty in Hx|]. by exists listing, item.
    + intros (l & item & [= <-] & ?). right. by exists item.
  - split; [by intros ?%elem_of_empty|]. by intros (? & ? & ? & _).
Qed.

Lemma elem_of_remaining_videos all_video_ids (downloaded : gset string) x :
  x ∈ remaining_videos all_video_ids downloaded
  ↔ x ∈ all_video_ids ∧ x ∉ downloaded.
Proof. unfold remaining_videos. rewrite list_elem_of_filter. tauto. Qed.

Lemma batch_videos_remaining all_video_ids (downloaded : gset string) x :
  x ∈ batch_videos all_video_ids downloaded →
  x ∈ remaining_videos all_video_ids downloaded.
Proof.
  unfold batch_videos. intros H%subseteq_take. by apply subseteq_drop in H.
Qed.

(** The batch holds identifiers that are not marked complete, each once when
    the identifier list has no duplicates (it comes from [unique()]). *)
Lemma batch_videos_fresh all_video_ids (downloaded : gset string) x :
  x ∈ batch_videos all_video_ids downloaded → x ∉ downloaded.
Proof. intros H%batch_videos_remaining. by apply elem_of_remaining_videos in H as []. Qed.

Lemma batch_videos_NoDup all_video_ids (downloaded : gset string) :
  NoDup all_video_ids → NoDup (batch_videos all_video_ids downloaded).
Proof.
  intros H. unfold batch_videos, remaining_videos.
  eapply sublist_NoDup; [|apply sublist_take].
  eapply sublist_NoDup; [|apply sublist_drop]. by apply NoDup_filter.
Qed.

(** C4. Union reconciliation: the reconciled set is the union of the logged
    identifiers [L] and the folders [F = existing_folders] found on disk, so
    that an identifier of either source is in it and is in neither
    [remaining_videos] nor the batch; the log {a} with folders b, c gives
    {a, b, c}. *)
Theorem reconcile_union (L : list string) (output_dir : option (list DirEntry)) :
  let F := existing_folders output_dir in
  let downloaded := reconcile (Some (Some L)) output_dir in
  downloaded = list_to_set L ∪ F
  ∧ (∀ x, (x ∈ downloaded) ↔ (x ∈ L ∨ x ∈ F))
  ∧ (∀ all_video_ids x, x ∈ L ∨ x ∈ F →
       (x ∉ remaining_videos all_video_ids downloaded)
       ∧ (x ∉ batch_videos all_video_ids downloaded))
  ∧ reconcile (Some (Some ["a"]))
      (Some [ {| name := "b"; is_dir := true |}; {| name := "c"; is_dir := true |} ])
    = {[ "a"; "b"; "c" ]}.
Proof.
  intros F downloaded.
  assert (Hmem : ∀ x, x ∈ downloaded ↔ x ∈ L ∨ x ∈ F).
  { intros x. unfold downloaded, reconcile. simpl.
    by rewrite elem_of_union, elem_of_list_to_set. }
  split_and!; [done|done| |].
  - intros all_video_ids x Hx%Hmem.
    assert (x ∉ remaining_videos all_video_ids downloaded) as Hr.
    { rewrite elem_of_remaining_videos. tauto. }
    split; [done|]. by intros ?%batch_videos_remaining.
  - apply set_eq. intros x. unfold reconcile.
    rewrite elem_of_union, elem_of_existing_folders. simpl.
    rewrite !elem_of_union, !elem_of_singleton, elem_of_empty. split.
    + intros [[->|[]]|(l & item & [= <-] & Hin & Hn & _)]; [auto|].
      apply elem_of_cons in Hin as [->|Hin]; [simpl in Hn; auto|].
      apply elem_of_cons in Hin as [->|Hin]; [simpl in Hn; auto|].
      by apply elem_of_nil in Hin.
    + intros [[->| ->]| ->]; [by left;left|right|right].
      * eexists _, {| name := "b"; is_dir := true |}.
        split_and!; [done|by left|done|done|done].
      * eexists _, {| name := "c"; is_dir := true |}.
        split_and!; [done|by right;left|done|done|done].
Qed.

(** C10. The filesystem scan adds exactly the names of the entries of the
    output directory that are directories and are not named ".git": ".git" is
    never among them, entries that are not directories are ignored, and the
    reconciled set is the logged identifiers plus these names. *)
Theorem existing_folders_exact (progress : option (option (list string)))
    (output_dir : option (list DirEntry)) :
  (∀ x, (x ∈ existing_folders output_dir)
        ↔ (∃ listing item, output_dir = Some listing ∧ item ∈ listing
            ∧ name item = x ∧ is_dir item = true ∧ x ≠ ".git"))
  ∧ (".git" ∉ existing_folders output_dir)
  ∧ (∀ x, (x ∈ reconcile progress output_dir)
          ↔ (x ∈ load_completed progress ∨ x ∈ existing_folders output_dir)).
Proof.
  split_and!.
  - apply elem_of_existing_folders.
  - rewrite elem_of_existing_folders. by intros (l & item & _ & _ & _ & _ & ?).
  - intros x. unfold reconcile. by rewrite elem_of_union.
Qed.

(** ** Saving the progress file *)

Lemma string_app_nil_r (s : string) : s +:+ "" = s.
Proof.
  induction s as [|a s IH]; [done|].
  change (String a (s +:+ "") = String a s). by rewrite IH.
Qed.

Lemma string_app_assoc (s1 s2 s3 : string) : (s1 +:+ s2) +:+ s3 = s1 +:+ (s2 +:+ s3).
Proof.
  induction s1 as [|a s1 IH]; [done|].
  change (String a ((s1 +:+ s2) +:+ s3) = String a (s1 +:+ (s2 +:+ s3))).
  by rewrite IH.
Qed.

Lemma write_pieces pieces : ∀ s n,
  foldl apply_op (Some s) (take n ((Write <$> pieces) ++ [Close]))
  = Some (s +:+ joined (take n pieces)).
Proof.
  induction pieces as [|piece pieces IH]; intros s n.
  - destruct n as [|n]; simpl; rewrite ?take_nil; simpl; by rewrite string_app_nil_r.
  - destruct n as [|n]; simpl; [by rewrite string_app_nil_r|].
    by rewrite IH, string_app_assoc.
Qed.

Lemma interrupted_save_content json_dump p n content :
  interrupted_save json_dump p (S n) content = Some (joined (take n (json_dump p))).
Proof. unfold interrupted_save, save_ops. simpl. by rewrite write_pieces. Qed.

Lemma save_progress_content json_dump p content :
  save_progress json_dump p content = Some (joined (json_dump p)).
Proof.
  unfold save_progress.
  rewrite <- (take_ge (save_ops json_dump p) (S (S (length (json_dump p))))).
  - fold (interrupted_save json_dump p (S (S (length (json_dump p)))) content).
    rewrite interrupted_save_content. by rewrite take_ge by lia.
  - unfold save_ops. simpl. rewrite length_app, length_fmap. simpl. lia.
Qed.

(** C5, as stated, fails whatever [json.dump] writes: right after
    [open(progress_file, 'w')] the previous checkpoint is gone. *)
Lemma checkpoint_not_atomic : ¬ ∃ json_dump, checkpoint_atomic json_dump.
Proof.
  intros [json_dump H].
  specialize (H {| completed := ["a"]; total := 1; timestamp := 0 |} "old" 1).
  rewrite interrupted_save_content in H. simpl in H.
  assert (Hlen : 0 < 1 < length
            (save_ops json_dump {| completed := ["a"]; total := 1; timestamp := 0 |})).
  { unfold save_ops. simpl. rewrite length_app. simpl. lia. }
  specialize (H Hlen). discriminate H.
Qed.

(** C5, amended. Every checkpoint write, periodic or final, rewrites the
    progress file in place: a save that completes leaves exactly the pieces
    [json.dump] writes for the current state; a save interrupted after it has
    begun leaves a prefix of these pieces (nothing at all right after the
    open), whatever the file held before. *)
Theorem save_in_place env total st n :
  let p := {| completed := elements (downloaded st); total := total;
              timestamp := clock env (ticks st) |} in
  progress_file (save env total st) = Some (joined (json_dump env p))
  ∧ interrupted_save (json_dump env) p (S n) (progress_file st)
    = Some (joined (take n (json_dump env p)))
  ∧ interrupted_save (json_dump env) p 1 (progress_file st) = Some "".
Proof.
  intros p. split_and!.
  - apply save_progress_content.
  - apply interrupted_save_content.
  - by rewrite interrupted_save_content.
Qed.

(** ** One download *)

Lemma error_lines_app l1 l2 : error_lines (l1 ++ l2) = error_lines l1 ++ error_lines l2.
Proof.
  induction l1 as [|line l1 IH]; [done|].
  destruct line; simpl; by rewrite IH.
Qed.

(** A download touches none of the script's variables and prints nothing; it
    records the call, and writes the transcript exactly when it succeeds. *)
Lemma download_view env i v st :
  let '(result, st1) := download_transcript_chunks env i v st in
  view st1
  = (downloaded st, processed st, rate_limited st, attempts st ++ [v],
     (stored st).*1 ++ (if succeeds env i v then [v] else []),
     error_lines (console st))
  ∧ match result with
    | Success _ => succeeds env i v = true ∧ reported_error env i v = None
    | Failure error => succeeds env i v = false ∧ reported_error env i v = Some error
    end.
Proof.
  unfold download_transcript_chunks, view, succeeds, reported_error, raised.
  destruct (fetch env i v) as [msg|[|s segs]]; simpl.
  - rewrite app_nil_r. split; [done|]. unfold on_exception.
    by destruct (rate_limit_text msg).
  - by rewrite app_nil_r.
  - destruct (store_fault env i v) as [msg|]; simpl.
    + rewrite app_nil_r. split; [done|]. unfold on_exception.
      by destruct (rate_limit_text msg).
    + by rewrite fmap_app.
Qed.

Lemma after_download_view env total n i total_done st :
  view (after_download env total n i total_done st)
  = (downloaded st, S (processed st), rate_limited st, attempts st,
     (stored st).*1, error_lines (console st)).
Proof.
  unfold after_download, view. simpl.
  destruct (_ =? 0), (i <? n - 1); simpl;
    rewrite ?error_lines_app; simpl; by rewrite ?app_nil_r.
Qed.

(** ** One iteration of the main loop *)

(** Runs the download of the iteration at hand and names what it leaves. *)
Ltac run_download env i v st :=
  let Hd := fresh "Hd" in
  let Hv := fresh "Hv" in
  cbn [main_loop];
  pose proof (download_view env i v
                (print (Downloading (size (downloaded st) + processed st + 1) v) st))
    as Hd;
  destruct (download_transcript_chunks env i v _) as [result st1];
  destruct Hd as [Hv Hr]; unfold view in Hv; simpl in Hv;
  rewrite error_lines_app in Hv; simpl in Hv; rewrite app_nil_r in Hv;
  injection Hv as Hdl Hp Hrl Hat Hst Hel.

(** An iteration that does not [break] hands over to the next index. *)
Lemma main_loop_continue env total n i v batch st :
  stops_loop env i v = false →
  ∃ st1,
    main_loop env total n i (v :: batch) st = main_loop env total n (S i) batch st1
    ∧ view st1
      = (if succeeds env i v then {[v]} ∪ downloaded st else downloaded st,
         S (processed st), rate_limited st, attempts st ++ [v],
         (stored st).*1 ++ (if succeeds env i v then [v] else []),
         error_lines (console st) ++ option_list (reported_error env i v)).
Proof.
  intros Hgo. run_download env i v st.
  destruct result as [chunks|error]; destruct Hr as [Hs He].
  - eexists. split; [done|]. rewrite after_download_view. simpl.
    rewrite Hs in Hst |- *.
    rewrite He, Hdl, Hp, Hrl, Hat, Hst, error_lines_app, Hel. simpl.
    by rewrite !app_nil_r.
  - unfold stops_loop in Hgo. rewrite He in Hgo. rewrite Hgo.
    eexists. split; [done|]. rewrite after_download_view. simpl.
    rewrite Hs in Hst |- *.
    rewrite He, Hdl, Hp, Hrl, Hat, Hst, error_lines_app, Hel. by simpl.
Qed.

(** An iteration that [break]s ends the loop with the flag set. *)
Lemma main_loop_stop env total n i v batch st :
  stops_loop env i v = true →
  view (main_loop env total n i (v :: batch) st)
  = (downloaded st, processed st, true, attempts st ++ [v], (stored st).*1,
     error_lines (console st))
  ∧ succeeds env i v = false.
Proof.
  intros Hstop. run_download env i v st.
  unfold stops_loop in Hstop.
  destruct result as [chunks|error]; destruct Hr as [Hs He]; rewrite He in Hstop;
    [done|].
  rewrite Hstop. unfold view. simpl. rewrite Hs in Hst. rewrite app_nil_r in Hst.
  rewrite Hdl, Hp, Hat, Hst, error_lines_app, Hel. simpl. by rewrite app_nil_r.
Qed.

Lemma rate_limit_failure_stops env i v :
  rate_limit_failure env i v = true → stops_loop env i v = true.
Proof.
  unfold rate_limit_failure, stops_loop, reported_error.
  destruct (raised env i v) as [msg|]; [|done]. intros ->.
  by destruct (fetch env i v) as [|[]].
Qed.

Lemma successes_subseteq env batch : ∀ i, successes env i batch ⊆ batch.
Proof.
  induction batch as [|v batch IH]; intros i x Hx; [done|]. simpl in Hx.
  apply elem_of_app in Hx as [Hx|Hx].
  - destruct (succeeds env i v); [|by apply elem_of_nil in Hx].
    apply list_elem_of_singleton in Hx as ->. by left.
  - right. by eapply IH.
Qed.

(** ** The main loop up to a rate-limit failure *)

Lemma main_loop_until_stop env total n pre : ∀ i v post st,
  (∀ j u, pre !! j = Some u → stops_loop env (i + j) u = false) →
  stops_loop env (i + length pre) v = true →
  view (main_loop env total n i (pre ++ v :: post) st)
  = (list_to_set (successes env i pre) ∪ downloaded st,
     processed st + length pre, true, attempts st ++ pre ++ [v],
     (stored st).*1 ++ successes env i pre,
     error_lines (console st) ++ reported_errors env i pre).
Proof.
  induction pre as [|u pre IH]; intros i v post st Hpre Hv.
  - cbn [app length successes reported_errors] in *. rewrite Nat.add_0_r in *.
    destruct (main_loop_stop env total n i v post st Hv) as [-> _].
    rewrite !app_nil_r. simpl. by rewrite (left_id_L ∅ (∪)).
  - cbn [app].
    destruct (main_loop_continue env total n i u (pre ++ v :: post) st)
      as (st1 & -> & Hst1).
    { rewrite <- (Nat.add_0_r i). by apply Hpre. }
    unfold view in Hst1. injection Hst1 as Hdl Hp Hrl Hat Hst Hel.
    rewrite (IH (S i) v post st1).
    + rewrite Hdl, Hp, Hat, Hst, Hel. cbn [successes reported_errors length].
      rewrite <- !app_assoc. simpl.
      replace (S (processed st + length pre)) with (processed st + S (length pre)) by lia.
      replace (list_to_set (successes env (S i) pre)
               ∪ (if succeeds env i u then {[u]} ∪ downloaded st else downloaded st))
        with (list_to_set ((if succeeds env i u then [u] else [])
                           ++ successes env (S i) pre) ∪ downloaded st : gset string);
        [done|].
      destruct (succeeds env i u); simpl; [|done].
      apply set_eq. intros x. rewrite !elem_of_union, elem_of_singleton. tauto.
    + intros j w Hj. replace (S i + j) with (i + S j) by lia. by apply Hpre.
    + by replace (S i + length pre) with (i + length (u :: pre)) by (simpl; lia).
Qed.

(** C3. Rate-limit halt: when the loop reaches an identifier [v] (no earlier
    download made it stop) whose download fails with a rate-limit condition,
    the downloads made are those of the identifiers before [v] and of [v], in
    order, and of none after it; the identifiers before [v] were all counted
    as processed, and those whose download succeeded were written and marked
    complete; [v] is not marked complete; and [rate_limited] is set. *)
Theorem rate_limit_halt env total n i pre v post st :
  (∀ j u, pre !! j = Some u → stops_loop env (i + j) u = false) →
  rate_limit_failure env (i + length pre) v = true →
  v ∉ downloaded st →
  v ∉ pre →
  let st' := main_loop env total n i (pre ++ v :: post) st in
  attempts st' = attempts st ++ pre ++ [v]
  ∧ processed st' = processed st + length pre
  ∧ downloaded st' = list_to_set (successes env i pre) ∪ downloaded st
  ∧ (stored st').*1 = (stored st).*1 ++ successes env i pre
  ∧ (v ∉ downloaded st')
  ∧ rate_limited st' = true.
Proof.
  intros Hpre Hv%rate_limit_failure_stops Hnew Hdup st'.
  pose proof (main_loop_until_stop env total n pre i v post st Hpre Hv) as Hview.
  fold st' in Hview. unfold view in Hview.
  injection Hview as Hdl Hp Hrl Hat Hst _.
  split_and!; try done. rewrite Hdl.
  intros [Hin%elem_of_list_to_set|Hin]%elem_of_union; [|done].
  by apply successes_subseteq in Hin.
Qed.

Lemma rate_limit_halt_witness :
  let st' := main_loop third_is_throttled 10 10 0 ten_videos
               (initial ∅ None (λ _, 22%float)) in
  attempts st' = ["v1"; "v2"; "v3"]
  ∧ processed st' = 2
  ∧ downloaded st' = list_to_set ["v1"; "v2"] ∪ ∅
  ∧ (stored st').*1 = ["v1"; "v2"]
  ∧ ("v3" ∉ downloaded st')
  ∧ rate_limited st' = true.
Proof.
  apply (rate_limit_halt third_is_throttled 10 10 0 ["v1"; "v2"] "v3"
           ["v4"; "v5"; "v6"; "v7"; "v8"; "v9"; "v10"]
           (initial ∅ None (λ _, 22%float))).
  - intros [|[|j]] u Hu; [reflexivity | reflexivity | discriminate Hu].
  - reflexivity.
  - apply not_elem_of_empty.
  - intros H. apply elem_of_cons in H as [H|H]; [discriminate H|].
    apply elem_of_cons in H as [H|H]; [discriminate H|].
    by apply elem_of_nil in H.
Defined.

(** ** Failures that are not rate limiting *)

(** The error reported for a failed download is ["No segments"] for an empty
    transcript, and otherwise the first 100 characters of the exception's
    text, or ["RateLimited"] when that text has a rate-limit indicator. *)
Lemma reported_error_cases env i v error :
  reported_error env i v = Some error →
  (fetch env i v = Transcript [] ∧ error = "No segments")
  ∨ ∃ msg, raised env i v = Some msg
      ∧ error = if rate_limit_text msg then "RateLimited"
                else String.substring 0 100 msg.
Proof.
  unfold reported_error. destruct (raised env i v) as [msg|] eqn:Hr.
  - intros H. right. exists msg. split; [done|].
    destruct (fetch env i v) as [|[|]]; by simplify_eq.
  - destruct (fetch env i v) as [|[|]]; intros H; simplify_eq. by left.
Qed.





(** * Further properties *)

(** ** The chunker: counts and coverage *)

Lemma chunk_trace_partition segments mn mx rnd :
  concat (chunk_trace segments mn mx rnd).*2 = segments.
Proof.
  unfold chunk_trace. destruct segments as [|s l]; [done|].
  by apply chunk_loop_partition.
Qed.

Lemma chunk_trace_nonempty segments mn mx rnd :
  Forall (λ g, g ≠ []) (chunk_trace segments mn mx rnd).*2.
Proof.
  apply Forall_lookup. intros k g Hk.
  apply list_lookup_fmap_Some in Hk as ([c g'] & Hg & Hk). simpl in Hg. subst g'.
  apply chunk_trace_records in Hk as (f & l & Hf & _). by destruct g.
Qed.

Lemma chunk_trace_counts segments mn mx rnd :
  c_segments <$> (chunk_trace segments mn mx rnd).*1
  = length <$> (chunk_trace segments mn mx rnd).*2.
Proof.
  apply list_eq. intros k. rewrite !list_lookup_fmap.
  destruct (chunk_trace segments mn mx rnd !! k) as [[c g]|] eqn:Hk; [|done].
  simpl. f_equal.
  by apply chunk_trace_records in Hk as (f & l & _ & _ & _ & _ & _ & _ & _ & ? & _).
Qed.

Lemma length_concat_nonempty {A} (gs : list (list A)) :
  Forall (λ g, g ≠ []) gs → length gs ≤ length (concat gs).
Proof.
  induction 1 as [|g gs Hg _ IH]; simpl; [done|].
  rewrite length_app. destruct g; [done | simpl; lia].
Qed.

Lemma chunk_trace_length segments mn mx rnd :
  length (chunk_trace segments mn mx rnd) ≤ length segments
  ∧ (chunk_trace segments mn mx rnd = [] ↔ segments = []).
Proof.
  pose proof (chunk_trace_partition segments mn mx rnd) as Hp.
  pose proof (chunk_trace_nonempty segments mn mx rnd) as Hn.
  split.
  - rewrite <- (length_fmap snd). rewrite <- Hp at 2.
    by apply length_concat_nonempty.
  - split.
    + intros H. rewrite H in Hp. by rewrite <- Hp.
    + by intros ->.
Qed.

(** X1. There are never more chunks than segments, and the result is empty
    exactly when the input is. *)
Theorem chunk_count_bounds segments min_duration max_duration rnd :
  length (chunk_smart_duration segments min_duration max_duration rnd)
  ≤ length segments
  ∧ (chunk_smart_duration segments min_duration max_duration rnd = []
     ↔ segments = []).
Proof.
  unfold chunk_smart_duration. rewrite length_fmap.
  destruct (chunk_trace_length segments min_duration max_duration rnd) as [Hl Hn].
  split; [done|]. rewrite <- Hn. split; [apply fmap_nil_inv | by intros ->].
Qed.

(** X2. The segment counts recorded in the chunks add up to the number of
    input segments. *)
Theorem chunk_segment_counts_sum segments min_duration max_duration rnd :
  sum_list (c_segments <$> chunk_smart_duration segments min_duration max_duration rnd)
  = length segments.
Proof.
  unfold chunk_smart_duration. rewrite chunk_trace_counts.
  rewrite <- (chunk_trace_partition segments min_duration max_duration rnd) at 2.
  generalize ((chunk_trace segments min_duration max_duration rnd).*2).
  induction l as [|g gs IH]; [done|].
  cbn [fmap list_fmap sum_list sum_list_with concat]. rewrite length_app.
  f_equal. exact IH.
Qed.

(** X3. The chunks span the transcript: the first chunk starts where the first
    segment starts, and the last chunk ends where the last segment ends. *)
Theorem chunks_span_transcript segments min_duration max_duration rnd s0 sn :
  head segments = Some s0 →
  last segments = Some sn →
  ∃ c0 cn,
    head (chunk_smart_duration segments min_duration max_duration rnd) = Some c0
    ∧ last (chunk_smart_duration segments min_duration max_duration rnd) = Some cn
    ∧ c_start c0 = start s0
    ∧ c_end cn = (start sn + duration sn)%float.
Proof.
  intros Hh Hl. unfold chunk_smart_duration.
  pose proof (chunk_trace_partition segments min_duration max_duration rnd) as Hp.
  pose proof (chunk_trace_records segments min_duration max_duration rnd) as Hrec.
  destruct (chunk_trace segments min_duration max_duration rnd) as [|[c0 g0] tr] eqn:Htr.
  { simpl in Hp. by subst. }
  destruct (last ((c0, g0) :: tr)) as [[cn gn]|] eqn:Hlast;
    [|by apply last_None in Hlast].
  exists c0, cn. split_and!.
  - done.
  - by rewrite fmap_last, Hlast.
  - destruct (Hrec 0 c0 g0 eq_refl) as (f & l & Hf & _ & _ & -> & _).
    simpl in Hp. rewrite <- Hp in Hh. rewrite head_app, Hf in Hh. congruence.
  - apply last_Some in Hlast as [tr' Htr'].
    destruct (Hrec (length tr') cn gn) as (f & l & _ & Hln & _ & _ & -> & _).
    { rewrite Htr'. by apply list_lookup_middle. }
    rewrite Htr', fmap_app, concat_app in Hp. simpl in Hp. rewrite app_nil_r in Hp.
    rewrite <- Hp, last_app, Hln in Hl. congruence.
Qed.

Lemma chunks_span_transcript_witness :
  ∃ c0 cn,
    head (chunk_smart_duration example_segments 20 30 (λ _, 22%float)) = Some c0
    ∧ last (chunk_smart_duration example_segments 20 30 (λ _, 22%float)) = Some cn
    ∧ c_start c0 = start (seg 0 10 "a")
    ∧ c_end cn = (start (seg 30 10 "e") + duration (seg 30 10 "e"))%float.
Proof.
  apply (chunks_span_transcript example_segments 20 30 (λ _, 22%float));
    reflexivity.
Defined.

(** ** The chunker: why a chunk is closed *)

Lemma chunk_loop_closed fuel : ∀ mn mx rnd id rest k c g c' g' s,
  chunk_loop fuel mn mx rnd id rest !! k = Some (c, g) →
  chunk_loop fuel mn mx rnd id rest !! S k = Some (c', g') →
  head g' = Some s →
  (accumulated g <? mn)%float = false
  ∧ (rnd k <=? accumulated g)%float
    || (mx <? accumulated g + duration s)%float = true.
Proof.
  induction fuel as [|fuel IH]; intros mn mx rnd id rest k c g c' g' s Hk Hk' Hs.
  { by destruct rest. }
  destruct rest as [|seg0 rest0]; [done|].
  destruct (chunk_loop_step fuel mn mx rnd id seg0 rest0)
    as (taken & lst & rest' & _ & _ & _ & Hbrk & _ & Heq).
  rewrite Heq in Hk, Hk'. destruct k as [|k]; simpl in Hk, Hk'.
  - injection Hk as <- <-. apply Hbrk.
    destruct fuel as [|fuel]; [by destruct rest'|].
    destruct rest' as [|seg1 rest1]; [done|].
    destruct (chunk_loop_step fuel mn mx (λ k, rnd (S k)) (S id) seg1 rest1)
      as (taken' & lst' & rest'' & _ & Hhd & _ & _ & _ & Heq').
    rewrite Heq' in Hk'. simpl in Hk'. injection Hk' as <- <-.
    simpl. congruence.
  - by apply (IH _ _ _ _ _ _ _ _ _ _ _ Hk Hk').
Qed.

(** X4. A chunk that is followed by another one was closed at the [break]:
    its accumulated duration was not below [min_duration], and it had reached
    the target sampled for it or the next segment would have taken it past
    [max_duration]. *)
Theorem chunk_closed_for_a_reason segments min_duration max_duration rnd k g g' s :
  chunk_constituents segments min_duration max_duration rnd !! k = Some g →
  chunk_constituents segments min_duration max_duration rnd !! S k = Some g' →
  head g' = Some s →
  (accumulated g <? min_duration)%float = false
  ∧ (rnd k <=? accumulated g)%float
    || (max_duration <? accumulated g + duration s)%float = true.
Proof.
  unfold chunk_constituents. intros Hk Hk' Hs.
  apply list_lookup_fmap_Some in Hk as ([c g0] & Hg & Hk). simpl in Hg. subst g0.
  apply list_lookup_fmap_Some in Hk' as ([c' g0] & Hg & Hk'). simpl in Hg. subst g0.
  unfold chunk_trace in *. destruct segments as [|s0 segs]; [done|].
  by eapply chunk_loop_closed.
Qed.

Lemma chunk_closed_for_a_reason_witness :
  (accumulated [seg 0 10 "a"; seg 10 10 "b"; seg 20 5 "c"] <? 20)%float = false
  ∧ (22 <=? accumulated [seg 0 10 "a"; seg 10 10 "b"; seg 20 5 "c"])%float
    || (30 <? accumulated [seg 0 10 "a"; seg 10 10 "b"; seg 20 5 "c"]
               + duration (seg 25 5 "d"))%float = true.
Proof.
  apply (chunk_closed_for_a_reason example_segments 20 30 (λ _, 22%float) 0
           [seg 0 10 "a"; seg 10 10 "b"; seg 20 5 "c"]
           [seg 25 5 "d"; seg 30 10 "e"] (seg 25 5 "d")); reflexivity.
Defined.

(** ** The chunker: a transcript that stays below the floor *)

Lemma inner_loop_below_floor mn mx tg rest : ∀ cs ts cur,
  (∀ n, n < length rest → cs ++ take n rest ≠ [] →
        (add_durations cur (take n rest) <? mn)%float = true) →
  inner_loop mn mx tg cs ts cur rest
  = (cs ++ rest, ts ++ (text <$> rest), add_durations cur rest, []).
Proof.
  induction rest as [|s rest IH]; intros cs ts cur H.
  { simpl. by rewrite !app_nil_r. }
  assert (inner_loop mn mx tg (cs ++ [s]) (ts ++ [text s]) (cur + duration s)%float rest
          = (cs ++ s :: rest, ts ++ (text <$> s :: rest),
             add_durations cur (s :: rest), [])) as Hrec.
  { rewrite IH.
    - by rewrite <- !app_assoc.
    - intros n Hn _. apply (H (S n)); [simpl; lia|]. by destruct cs. }
  cbn [inner_loop]. destruct cs as [|c cs]; [done|].
  assert ((cur <? mn)%float = true) as -> by (apply (H 0); [simpl; lia | done]).
  done.
Qed.

(** X5. A transcript whose accumulated duration stays below [min_duration]
    until its last segment comes out as one chunk holding all its segments,
    whatever the target and [max_duration]. *)
Theorem below_floor_single_chunk segments min_duration max_duration rnd :
  segments ≠ [] →
  (∀ n, 0 < n < length segments →
        (accumulated (take n segments) <? min_duration)%float = true) →
  chunk_constituents segments min_duration max_duration rnd = [segments].
Proof.
  intros Hne Hlow. unfold chunk_constituents, chunk_trace.
  destruct segments as [|s l]; [done|].
  cbn [length chunk_loop draw].
  rewrite inner_loop_below_floor.
  - cbn [app]. destruct (last (s :: l)) as [lst|] eqn:Hl; [|by apply last_None in Hl].
    by rewrite chunk_loop_nil.
  - intros n Hn Hnil. apply Hlow. split; [|done].
    destruct n; [done | lia].
Qed.

Lemma below_floor_single_chunk_witness :
  chunk_constituents short_segments 20 30 (λ _, 22%float) = [short_segments].
Proof.
  apply (below_floor_single_chunk short_segments 20 30 (λ _, 22%float)).
  - discriminate.
  - intros [|[|n]] [H1 H2]; [lia | reflexivity | simpl in H2; lia].
Defined.

(** ** The chunker: every segment of a chunk passed a rule *)

Lemma inner_loop_each mn mx tg rest : ∀ cs ts cur,
  ∃ taken rest',
    inner_loop mn mx tg cs ts cur rest
    = (cs ++ taken, ts ++ (text <$> taken), add_durations cur taken, rest')
    ∧ ∀ pre x post, taken = pre ++ x :: post →
        cs ++ pre = []
        ∨ (add_durations cur pre <? mn)%float = true
        ∨ ((tg <=? add_durations cur pre)%float = false
           ∧ (mx <? add_durations cur (pre ++ [x]))%float = false).
Proof.
  induction rest as [|s rest IH]; intros cs ts cur.
  { exists [], []. rewrite !app_nil_r. split; [done|]. intros pre x post H.
    by destruct pre. }
  assert (Happ : cs = [] ∨ (cur <? mn)%float = true
                 ∨ ((tg <=? cur)%float = false
                    ∧ (mx <? cur + duration s)%float = false) →
    ∃ taken rest',
      inner_loop mn mx tg (cs ++ [s]) (ts ++ [text s]) (cur + duration s)%float rest
      = (cs ++ taken, ts ++ (text <$> taken), add_durations cur taken, rest')
      ∧ ∀ pre x post, taken = pre ++ x :: post →
          cs ++ pre = []
          ∨ (add_durations cur pre <? mn)%float = true
          ∨ ((tg <=? add_durations cur pre)%float = false
             ∧ (mx <? add_durations cur (pre ++ [x]))%float = false)).
  { intros Hrule.
    destruct (IH (cs ++ [s]) (ts ++ [text s]) (cur + duration s)%float)
      as (taken & rest' & Heq & Heach).
    exists (s :: taken), rest'. rewrite Heq, <- !app_assoc. split; [done|].
    intros pre x post Hpre. destruct pre as [|p pre]; simpl in Hpre.
    - injection Hpre as <- _. rewrite app_nil_r. simpl. naive_solver.
    - injection Hpre as <- ->.
      destruct (Heach pre x post eq_refl) as [Hnil|H]; [by destruct cs | by right]. }
  cbn [inner_loop]. destruct cs as [|c cs0].
  { apply Happ. by left. }
  destruct (cur <? mn)%float eqn:Hmin.
  { apply Happ. right. by left. }
  destruct (tg <=? cur)%float eqn:Htg; simpl.
  { exists [], (s :: rest). rewrite !app_nil_r. split; [done|].
    intros pre x post H. by destruct pre. }
  destruct (mx <? cur + duration s)%float eqn:Hmx.
  { exists [], (s :: rest). rewrite !app_nil_r. split; [done|].
    intros pre x post H. by destruct pre. }
  apply Happ. right. right. done.
Qed.

Lemma chunk_loop_each fuel : ∀ mn mx rnd id rest k c g pre x post,
  chunk_loop fuel mn mx rnd id rest !! k = Some (c, g) →
  g = pre ++ x :: post →
  pre = []
  ∨ (accumulated pre <? mn)%float = true
  ∨ ((rnd k <=? accumulated pre)%float = false
     ∧ (mx <? accumulated (pre ++ [x]))%float = false).
Proof.
  induction fuel as [|fuel IH]; intros mn mx rnd id rest k c g pre x post Hk Hg.
  { by destruct rest. }
  destruct rest as [|seg0 rest0]; [done|].
  destruct (inner_loop_taken mn mx (rnd 0) (seg0 :: rest0) [] [] 0%float)
    as (taken & rest' & _ & Heq & Hne & _).
  specialize (Hne eq_refl ltac:(done)).
  destruct (inner_loop_each mn mx (rnd 0) (seg0 :: rest0) [] [] 0%float)
    as (taken' & rest'' & Heq' & Heach).
  rewrite Heq in Heq'. cbn [app] in Heq'. injection Heq' as <- _ _ _.
  cbn [chunk_loop draw] in Hk. rewrite Heq in Hk. cbn [app] in Hk.
  destruct (last taken) as [lst|] eqn:Hl; [|by apply last_None in Hl].
  destruct k as [|k]; simpl in Hk.
  - injection Hk as <- <-. by apply (Heach pre x post).
  - by apply (IH mn mx (λ k, rnd (S k)) (S id) rest' k c g pre x post).
Qed.

(** X6. Every segment of a chunk after its first one was taken under a rule:
    either the chunk was still below [min_duration] before it, or the target
    was not yet reached and the segment did not take the chunk past
    [max_duration]. *)
Theorem every_segment_passed_a_rule segments min_duration max_duration rnd k g
    pre x post :
  chunk_constituents segments min_duration max_duration rnd !! k = Some g →
  g = pre ++ x :: post →
  pre ≠ [] →
  (accumulated pre <? min_duration)%float = true
  ∨ ((rnd k <=? accumulated pre)%float = false
     ∧ (max_duration <? accumulated (pre ++ [x]))%float = false).
Proof.
  unfold chunk_constituents. intros Hk Hg Hpre.
  apply list_lookup_fmap_Some in Hk as ([c g0] & Hg0 & Hk). simpl in Hg0. subst g0.
  unfold chunk_trace in *. destruct segments as [|s0 segs]; [done|].
  by destruct (chunk_loop_each _ _ _ _ _ _ _ _ _ _ _ _ Hk Hg) as [?|?].
Qed.

Lemma every_segment_passed_a_rule_witness :
  (accumulated [seg 0 10 "a"; seg 10 10 "b"] <? 20)%float = true
  ∨ ((22 <=? accumulated [seg 0 10 "a"; seg 10 10 "b"])%float = false
     ∧ (30 <? accumulated ([seg 0 10 "a"; seg 10 10 "b"] ++ [seg 20 5 "c"]))%float
       = false).
Proof.
  apply (every_segment_passed_a_rule example_segments 20 30 (λ _, 22%float) 0
           [seg 0 10 "a"; seg 10 10 "b"; seg 20 5 "c"]
           [seg 0 10 "a"; seg 10 10 "b"] (seg 20 5 "c") []);
    [reflexivity | reflexivity | discriminate].
Defined.

(** ** The chunker: an oversized first segment *)

Lemma SFleb_ltb_trans x y z :
  SFleb x y = true → SFltb y z = true → SFleb x z = true.
Proof.
  unfold SFleb, SFltb.
  destruct x as [sx|sx| |sx mx ex], y as [sy|sy| |sy my ey], z as [sz|sz| |sz mz ez];
    simpl; intros H1 H2; try done; compare_cases; try done; try lia.
Qed.

Lemma SFleb_ltb_false x y : SFleb x y = true → SFltb y x = false.
Proof.
  unfold SFleb, SFltb.
  destruct x as [sx|sx| |sx mx ex], y as [sy|sy| |sy my ey];
    simpl; intros H1; try done; compare_cases; try done; try lia.
Qed.

Lemma SFcompare_zero_add_r y z :
  SFcompare z (SF64add (S754_zero false) y) = SFcompare z y.
Proof.
  unfold SF64add, SFadd. destruct y as [sy|sy| |sy my ey]; try done.
  by destruct sy, z.
Qed.

(** [0 + d] compares like [d]. *)
Lemma ltb_zero_add x d : (x <? 0 + d)%float = (x <? d)%float.
Proof.
  rewrite !ltb_spec, add_spec. unfold SFltb.
  change (Prim2SF 0) with (S754_zero false). by rewrite SFcompare_zero_add_r.
Qed.

Lemma leb_zero_add x d : (x <=? 0 + d)%float = (x <=? d)%float.
Proof.
  rewrite !leb_spec, add_spec. unfold SFleb.
  change (Prim2SF 0) with (S754_zero false). by rewrite SFcompare_zero_add_r.
Qed.

Lemma leb_ltb_trans x y z :
  (x <=? y)%float = true → (y <? z)%float = true → (x <=? z)%float = true.
Proof. rewrite !leb_spec, ltb_spec. apply SFleb_ltb_trans. Qed.

Lemma leb_ltb_false x y : (x <=? y)%float = true → (y <? x)%float = false.
Proof. rewrite leb_spec, ltb_spec. apply SFleb_ltb_false. Qed.

(** X7. For bounds with min_duration ≤ max_duration and a target that is at
    most max_duration, a chunk whose first segment is longer than
    max_duration holds that segment alone. *)
Theorem oversized_first_segment_alone segments min_duration max_duration rnd k s g :
  (min_duration <=? max_duration)%float = true →
  (rnd k <=? max_duration)%float = true →
  chunk_constituents segments min_duration max_duration rnd !! k = Some (s :: g) →
  (max_duration <? duration s)%float = true →
  g = [].
Proof.
  intros Hmm Htg Hk Hbig. unfold chunk_constituents in Hk.
  apply list_lookup_fmap_Some in Hk as ([c g0] & Hg0 & Hk). simpl in Hg0. subst g0.
  unfold chunk_trace in *. destruct segments as [|s0 segs]; [done|].
  destruct g as [|x post]; [done|]. exfalso.
  assert ((max_duration <? accumulated [s])%float = true) as Hacc.
  { unfold accumulated, add_durations. simpl. by rewrite ltb_zero_add. }
  destruct (chunk_loop_each _ _ _ _ _ _ _ _ _ [s] x post Hk eq_refl)
    as [?|[Hlow|[Hnot _]]]; [done| |].
  - pose proof (leb_ltb_trans _ _ _ Hmm Hacc) as Hle.
    apply leb_ltb_false in Hle. congruence.
  - pose proof (leb_ltb_trans _ _ _ Htg Hacc). congruence.
Qed.

Lemma oversized_first_segment_alone_witness : @nil Segment = [].
Proof.
  apply (oversized_first_segment_alone oversized_first_segments 20 30
           (λ _, 22%float) 0 (seg 0 45 "a") []); reflexivity.
Defined.

(** ** The chunker: text and time line *)

Lemma concat_sep_cons sep (x y : string) (l : list string) :
  String.concat sep (x :: y :: l) = x +:+ sep +:+ String.concat sep (y :: l).
Proof. done. Qed.

Lemma concat_sep_app sep (l1 l2 : list string) :
  l1 ≠ [] → l2 ≠ [] →
  String.concat sep (l1 ++ l2)
  = String.concat sep l1 +:+ sep +:+ String.concat sep l2.
Proof.
  intros H1 H2. induction l1 as [|x l1 IH]; [done|].
  destruct l1 as [|y l1].
  - destruct l2 as [|z l2]; [done|]. apply concat_sep_cons.
  - cbn [app]. rewrite !concat_sep_cons.
    cbn [app] in IH. rewrite IH by done. by rewrite !string_app_assoc.
Qed.

Lemma concat_sep_groups sep (gs : list (list string)) :
  Forall (λ g, g ≠ []) gs →
  String.concat sep (String.concat sep <$> gs) = String.concat sep (concat gs).
Proof.
  induction 1 as [|g gs Hg Hgs IH]; [done|].
  destruct Hgs as [|g' gs Hg' Hgs].
  - simpl. by rewrite app_nil_r.
  - cbn [fmap list_fmap concat] in *. rewrite concat_sep_cons.
    rewrite concat_sep_app; [|done|by destruct g'].
    by rewrite IH.
Qed.

(** X8. The text of the transcript survives chunking: the chunk texts joined
    by single spaces are the segment texts joined by single spaces. *)
Theorem chunk_texts_join segments min_duration max_duration rnd :
  String.concat " "
    (c_text <$> chunk_smart_duration segments min_duration max_duration rnd)
  = String.concat " " (text <$> segments).
Proof.
  unfold chunk_smart_duration.
  pose proof (chunk_trace_partition segments min_duration max_duration rnd) as Hp.
  pose proof (chunk_trace_nonempty segments min_duration max_duration rnd) as Hn.
  assert (c_text <$> (chunk_trace segments min_duration max_duration rnd).*1
          = String.concat " " <$> (fmap text <$>
              (chunk_trace segments min_duration max_duration rnd).*2)) as ->.
  { apply list_eq. intros k. rewrite !list_lookup_fmap.
    destruct (chunk_trace segments min_duration max_duration rnd !! k)
      as [[c g]|] eqn:Hk; [|done].
    simpl. f_equal.
    by apply chunk_trace_records in Hk as (f & l & _ & _ & _ & _ & _ & _ & ? & _). }
  rewrite concat_sep_groups.
  - rewrite <- Hp at 2. f_equal.
    generalize ((chunk_trace segments min_duration max_duration rnd).*2).
    induction l as [|g gs IH]; [done|].
    by rewrite fmap_cons, !concat_cons, fmap_app, IH.
  - apply Forall_fmap. eapply Forall_impl; [exact Hn|].
    intros g Hg. simpl. by destruct g.
Qed.

Lemma contiguous_app_r l1 l2 : contiguous (l1 ++ l2) → contiguous l2.
Proof.
  induction l1 as [|a l1 IH]; [done|]. intros H. apply IH.
  cbn [app contiguous] in H. by destruct (l1 ++ l2); [|destruct H].
Qed.

Lemma contiguous_adjacent pre a b post :
  contiguous (pre ++ a :: b :: post) → start b = (start a + duration a)%float.
Proof. intros H%contiguous_app_r. by destruct H. Qed.

Lemma chunk_loop_abut fuel : ∀ mn mx rnd id rest k c g c' g',
  contiguous rest →
  chunk_loop fuel mn mx rnd id rest !! k = Some (c, g) →
  chunk_loop fuel mn mx rnd id rest !! S k = Some (c', g') →
  c_start c' = c_end c.
Proof.
  induction fuel as [|fuel IH]; intros mn mx rnd id rest k c g c' g' Hc Hk Hk'.
  { by destruct rest. }
  destruct rest as [|seg0 rest0]; [done|].
  destruct (chunk_loop_step fuel mn mx rnd id seg0 rest0)
    as (taken & lst & rest' & Hsplit & _ & Hl & _ & _ & Heq).
  rewrite Heq in Hk, Hk'. rewrite Hsplit in Hc.
  destruct k as [|k]; simpl in Hk, Hk'.
  - injection Hk as <- <-.
    destruct fuel as [|fuel]; [by destruct rest'|].
    destruct rest' as [|seg1 rest1]; [done|].
    destruct (chunk_loop_step fuel mn mx (λ k, rnd (S k)) (S id) seg1 rest1)
      as (taken' & lst' & rest'' & _ & _ & _ & _ & _ & Heq').
    rewrite Heq' in Hk'. simpl in Hk'. injection Hk' as <- <-. simpl.
    apply last_Some in Hl as [pre ->]. rewrite <- app_assoc in Hc.
    by apply contiguous_adjacent in Hc.
  - apply contiguous_app_r in Hc.
    by apply (IH mn mx (λ k, rnd (S k)) (S id) rest' k c g c' g').
Qed.

(** X9. On a transcript in which every segment starts where the one before
    it ends, every chunk starts where the chunk before it ends. *)
Theorem contiguous_chunks_abut segments min_duration max_duration rnd k c c' :
  contiguous segments →
  chunk_smart_duration segments min_duration max_duration rnd !! k = Some c →
  chunk_smart_duration segments min_duration max_duration rnd !! S k = Some c' →
  c_start c' = c_end c.
Proof.
  unfold chunk_smart_duration. intros Hc Hk Hk'.
  apply list_lookup_fmap_Some in Hk as ([c0 g] & Hg & Hk). simpl in Hg. subst c0.
  apply list_lookup_fmap_Some in Hk' as ([c0 g'] & Hg & Hk'). simpl in Hg. subst c0.
  unfold chunk_trace in *. destruct segments as [|s0 segs]; [done|].
  by eapply chunk_loop_abut.
Qed.

Lemma contiguous_chunks_abut_witness :
  c_start {| chunk_id := 1; c_start := 25; c_end := 40; c_duration := 15;
             c_text := "d e"; c_segments := 2 |}
  = c_end {| chunk_id := 0; c_start := 0; c_end := 25; c_duration := 25;
             c_text := "a b c"; c_segments := 3 |}.
Proof.
  apply (contiguous_chunks_abut example_segments 20 30 (λ _, 22%float) 0).
  - repeat split; reflexivity.
  - reflexivity.
  - reflexivity.
Defined.

(** ** The batch window *)

(** X10. The batch keeps the order of the identifier list, holds at most
    [BATCH_SIZE] identifiers, none of them marked complete, and no identifier
    twice when the list has none twice. *)
Theorem batch_window all_video_ids (downloaded : gset string) :
  batch_videos all_video_ids downloaded `sublist_of` all_video_ids
  ∧ length (batch_videos all_video_ids downloaded) ≤ BATCH_SIZE
  ∧ (∀ x, x ∈ batch_videos all_video_ids downloaded → x ∉ downloaded)
  ∧ (NoDup all_video_ids → NoDup (batch_videos all_video_ids downloaded)).
Proof.
  split_and!.
  - unfold batch_videos, remaining_videos.
    etrans; [apply sublist_take|]. etrans; [apply sublist_drop|].
    apply sublist_filter.
  - unfold batch_videos. rewrite length_take. lia.
  - apply batch_videos_fresh.
  - apply batch_videos_NoDup.
Qed.

Lemma batch_videos_all_done all_video_ids (downloaded : gset string) :
  (∀ x, x ∈ all_video_ids → x ∈ downloaded) →
  batch_videos all_video_ids downloaded = [].
Proof.
  intros Hall. unfold batch_videos.
  assert (remaining_videos all_video_ids downloaded = []) as ->;
    [|by rewrite drop_nil, take_nil].
  destruct (remaining_videos all_video_ids downloaded) as [|x l] eqn:Hr; [done|].
  assert (x ∈ remaining_videos all_video_ids downloaded) as Hx
    by (rewrite Hr; by left).
  apply elem_of_remaining_videos in Hx as [Hx Hn]. by apply Hall in Hx.
Qed.

(** X11. The batch is empty, and the script exits before the main loop,
    exactly when every identifier of the list is marked complete. *)
Theorem batch_empty_iff_all_done all_video_ids (downloaded : gset string) :
  batch_videos all_video_ids downloaded = []
  ↔ ∀ x, x ∈ all_video_ids → x ∈ downloaded.
Proof.
  split; [|apply batch_videos_all_done].
  unfold batch_videos, START_INDEX, BATCH_SIZE. rewrite drop_0.
  intros [?|Hnil]%take_nil_inv; [done|]. intros x Hx.
  destruct (decide (x ∈ downloaded)) as [|Hn]; [done|].
  assert (x ∈ remaining_videos all_video_ids downloaded) as Hr
    by by apply elem_of_remaining_videos.
  rewrite Hnil in Hr. by apply elem_of_nil in Hr.
Qed.

(** ** Classifying an exception *)

Lemma prefix_app (s1 s2 : string) :
  String.prefix s1 s2 = true ↔ ∃ post, s2 = s1 +:+ post.
Proof.
  revert s2. induction s1 as [|a s1 IH]; intros s2.
  - split; [|by destruct s2]. intros _. by exists s2.
  - destruct s2 as [|b s2]; simpl.
    + split; [done|]. by intros [post ?].
    + destruct (Ascii.ascii_dec a b) as [->|Hne].
      * rewrite IH. split; intros [post Hp]; exists post.
        -- change (String b s2 = String b (s1 +:+ post)). by rewrite Hp.
        -- change (String b s2 = String b (s1 +:+ post)) in Hp. by simplify_eq.
      * split; [done|]. intros [post Hp].
        change (String b s2 = String a (s1 +:+ post)) in Hp. by simplify_eq.
Qed.

Lemma contains_app (needle hay : string) :
  contains needle hay = true ↔ ∃ pre post, hay = pre +:+ needle +:+ post.
Proof.
  induction hay as [|b hay IH]; cbn [contains]; rewrite orb_true_iff, prefix_app.
  - split.
    + intros [[post Hp]|?]; [|done]. by exists "", post.
    + intros (pre & post & Hp). left. exists post.
      destruct pre as [|c pre]; [done|]. discriminate Hp.
  - rewrite IH. split.
    + intros [[post Hp]|(pre & post & Hp)]; [by exists "", post|].
      exists (String b pre), post.
      change (String b hay = String b (pre +:+ needle +:+ post)). by rewrite Hp.
    + intros (pre & post & Hp). destruct pre as [|c pre].
      * left. by exists post.
      * right. exists pre, post.
        change (String b hay = String c (pre +:+ needle +:+ post)) in Hp.
        by simplify_eq.
Qed.

(** X12. An exception is answered with ['RateLimited'] exactly when its text
    has ["429"] or ["Too Many Requests"] somewhere in it; any other exception
    is answered with the first 100 characters of its text. *)
Theorem on_exception_classifies (error_msg : string) :
  (on_exception error_msg = Failure "RateLimited"
   ∧ ∃ pre post, error_msg = pre +:+ "429" +:+ post
                 ∨ error_msg = pre +:+ "Too Many Requests" +:+ post)
  ∨ (on_exception error_msg = Failure (String.substring 0 100 error_msg)
     ∧ ¬ ∃ pre post, error_msg = pre +:+ "429" +:+ post
                     ∨ error_msg = pre +:+ "Too Many Requests" +:+ post).
Proof.
  unfold on_exception, rate_limit_text.
  destruct (contains "429" error_msg) eqn:H1; simpl.
  { left. split; [done|]. apply contains_app in H1 as (pre & post & ?).
    exists pre, post. by left. }
  destruct (contains "Too Many Requests" error_msg) eqn:H2.
  { left. split; [done|]. apply contains_app in H2 as (pre & post & ?).
    exists pre, post. by right. }
  right. split; [done|]. intros (pre & post & [Hp|Hp]).
  - assert (contains "429" error_msg = true) by (apply contains_app; eauto).
    congruence.
  - assert (contains "Too Many Requests" error_msg = true)
      by (apply contains_app; eauto).
    congruence.
Qed.

Lemma length_substring_le (s : string) : ∀ n, String.length (String.substring 0 n s) ≤ n.
Proof.
  induction s as [|a s IH]; intros [|n]; simpl; try lia.
  specialize (IH n). lia.
Qed.

Lemma substring_prefix (s : string) : ∀ n,
  String.prefix (String.substring 0 n s) s = true.
Proof.
  induction s as [|a s IH]; intros [|n]; simpl; try done.
  destruct (Ascii.ascii_dec a a); [apply IH | done].
Qed.

(** X13. The error of a failed download is never longer than 100 characters;
    it is ['RateLimited'], ['No segments'], or the beginning of the text of the
    exception that was raised. *)
Theorem failure_text_bounded env call video_id st error :
  (download_transcript_chunks env call video_id st).1 = Failure error →
  String.length error ≤ 100
  ∧ (error = "RateLimited" ∨ error = "No segments"
     ∨ ∃ error_msg, raised env call video_id = Some error_msg
                    ∧ String.prefix error error_msg = true).
Proof.
  pose proof (download_view env call video_id st) as Hd.
  destruct (download_transcript_chunks env call video_id st) as [result st1].
  destruct Hd as [_ Hr]. simpl. intros ->. destruct Hr as [_ He].
  apply reported_error_cases in He as [[_ ->]|(msg & Hm & ->)].
  - split; [simpl; lia | auto].
  - destruct (rate_limit_text msg).
    + split; [simpl; lia | auto].
    + split; [apply length_substring_le|]. right. right. exists msg.
      split; [done | apply substring_prefix].
Qed.

Lemma failure_text_bounded_witness :
  String.length "RateLimited" ≤ 100
  ∧ ("RateLimited" = "RateLimited" ∨ "RateLimited" = "No segments"
     ∨ ∃ error_msg, raised third_is_throttled 2 "v3" = Some error_msg
                    ∧ String.prefix "RateLimited" error_msg = true).
Proof.
  apply (failure_text_bounded third_is_throttled 2 "v3"
           (initial ∅ None (λ _, 22%float))).
  reflexivity.
Defined.

(** X14. A download that succeeds writes the chunks that
    [chunk_smart_duration] makes of the fetched transcript with bounds 20 and
    30, reports how many they are, between 1 and the number of segments, and
    uses up one random sample per chunk; it changes neither the completion
    set nor the progress file. *)
Theorem successful_download env call video_id st chunks :
  (download_transcript_chunks env call video_id st).1 = Success chunks →
  ∃ segments,
    fetch env call video_id = Transcript segments
    ∧ stored (download_transcript_chunks env call video_id st).2
      = stored st
        ++ [(video_id,
             chunk_smart_duration segments MIN_CHUNK_DURATION MAX_CHUNK_DURATION
               (rnd st))]
    ∧ chunks
      = length (chunk_smart_duration segments MIN_CHUNK_DURATION
                  MAX_CHUNK_DURATION (rnd st))
    ∧ 1 ≤ chunks ≤ length segments
    ∧ (∀ k, rnd (download_transcript_chunks env call video_id st).2 k
            = rnd st (chunks + k))
    ∧ downloaded (download_transcript_chunks env call video_id st).2
      = downloaded st
    ∧ progress_file (download_transcript_chunks env call video_id st).2
      = progress_file st.
Proof.
  unfold download_transcript_chunks.
  destruct (fetch env call video_id) as [msg|[|s segs]] eqn:Hf; simpl.
  - unfold on_exception. by destruct (rate_limit_text msg).
  - done.
  - destruct (store_fault env call video_id) as [msg|]; simpl.
    { unfold on_exception. by destruct (rate_limit_text msg). }
    intros [= <-]. exists (s :: segs).
    destruct (chunk_trace_length (s :: segs) MIN_CHUNK_DURATION
                MAX_CHUNK_DURATION (rnd st)) as [Hlen Hnil].
    unfold chunk_smart_duration. rewrite length_fmap. split_and!; try done.
    destruct (chunk_trace _ _ _ _); [|simpl; lia].
    by destruct Hnil as [Hnil _]; specialize (Hnil eq_refl).
Qed.

Lemma successful_download_witness :
  ∃ segments,
    fetch all_succeed 0 "v1" = Transcript segments
    ∧ stored (download_transcript_chunks all_succeed 0 "v1"
                (initial ∅ None (λ _, 22%float))).2
      = stored (initial ∅ None (λ _, 22%float))
        ++ [("v1",
             chunk_smart_duration segments MIN_CHUNK_DURATION MAX_CHUNK_DURATION
               (rnd (initial ∅ None (λ _, 22%float))))]
    ∧ 2
      = length (chunk_smart_duration segments MIN_CHUNK_DURATION
                  MAX_CHUNK_DURATION (rnd (initial ∅ None (λ _, 22%float))))
    ∧ 1 ≤ 2 ≤ length segments
    ∧ (∀ k, rnd (download_transcript_chunks all_succeed 0 "v1"
                   (initial ∅ None (λ _, 22%float))).2 k
            = rnd (initial ∅ None (λ _, 22%float)) (2 + k))
    ∧ downloaded (download_transcript_chunks all_succeed 0 "v1"
                    (initial ∅ None (λ _, 22%float))).2
      = downloaded (initial ∅ None (λ _, 22%float))
    ∧ progress_file (download_transcript_chunks all_succeed 0 "v1"
                       (initial ∅ None (λ _, 22%float))).2
      = progress_file (initial ∅ None (λ _, 22%float)).
Proof.
  apply (successful_download all_succeed 0 "v1" (initial ∅ None (λ _, 22%float)) 2).
  reflexivity.
Defined.

(** ** The main loop on any batch *)

Lemma stops_within_false env batch : ∀ i,
  stops_within env i batch = false
  ↔ ∀ j u, batch !! j = Some u → stops_loop env (i + j) u = false.
Proof.
  induction batch as [|v batch IH]; intros i; simpl.
  { split; [|done]. by intros _ j u. }
  rewrite orb_false_iff, IH. split.
  - intros [Hv Hb] [|j] u Hj; simpl in Hj.
    + rewrite Nat.add_0_r. by simplify_eq.
    + rewrite Nat.add_succ_r. by apply Hb.
  - intros H. split.
    + rewrite <- (Nat.add_0_r i). by apply H.
    + intros j u Hj. replace (S i + j) with (i + S j) by lia. by apply H.
Qed.

(** The first download that stops the loop, if there is one. *)
Lemma first_stop env batch : ∀ i,
  stops_within env i batch = true →
  ∃ pre v post,
    batch = pre ++ v :: post
    ∧ stops_within env i pre = false
    ∧ stops_loop env (i + length pre) v = true.
Proof.
  induction batch as [|v batch IH]; intros i H; [done|]. simpl in H.
  destruct (stops_loop env i v) eqn:Hv.
  - exists [], v, batch. by rewrite Nat.add_0_r.
  - destruct (IH (S i) H) as (pre & w & post & -> & Hpre & Hw).
    exists (v :: pre), w, post. simpl. rewrite Hv, Hpre.
    by replace (i + S (length pre)) with (S i + length pre) by lia.
Qed.

Lemma main_loop_no_stop env total n batch : ∀ i st,
  stops_within env i batch = false →
  view (main_loop env total n i batch st)
  = (list_to_set (successes env i batch) ∪ downloaded st,
     processed st + length batch, rate_limited st, attempts st ++ batch,
     (stored st).*1 ++ successes env i batch,
     error_lines (console st) ++ reported_errors env i batch).
Proof.
  induction batch as [|u batch IH]; intros i st Hgo.
  { unfold view. simpl. rewrite !app_nil_r, Nat.add_0_r.
    by rewrite (left_id_L ∅ (∪)). }
  simpl in Hgo. apply orb_false_iff in Hgo as [Hu Hgo].
  destruct (main_loop_continue env total n i u batch st Hu) as (st1 & -> & Hst1).
  unfold view in Hst1. injection Hst1 as Hdl Hp Hrl Hat Hst Hel.
  rewrite (IH (S i) st1 Hgo).
  rewrite Hdl, Hp, Hrl, Hat, Hst, Hel. cbn [successes reported_errors length].
  rewrite <- !app_assoc. simpl.
  replace (S (processed st + length batch))
    with (processed st + S (length batch)) by lia.
  replace (list_to_set (successes env (S i) batch)
           ∪ (if succeeds env i u then {[u]} ∪ downloaded st else downloaded st))
    with (list_to_set ((if succeeds env i u then [u] else [])
                       ++ successes env (S i) batch) ∪ downloaded st : gset string);
    [done|].
  destruct (succeeds env i u); simpl; [|done].
  apply set_eq. intros x. rewrite !elem_of_union, elem_of_singleton. tauto.
Qed.

Lemma successes_sublist env batch : ∀ i, successes env i batch `sublist_of` batch.
Proof.
  induction batch as [|v batch IH]; intros i; simpl; [done|].
  destruct (succeeds env i v); simpl.
  - by apply sublist_skip.
  - by apply sublist_cons.
Qed.

(** What the loop leaves, with [m] the number of downloads it made. *)
Lemma main_loop_view env total n i batch st :
  ∃ m done_ids errors,
    m ≤ length batch
    ∧ done_ids `sublist_of` take m batch
    ∧ processed st + m
      = processed (main_loop env total n i batch st)
        + (if stops_within env i batch then 1 else 0)
    ∧ (stops_within env i batch = false → m = length batch)
    ∧ view (main_loop env total n i batch st)
      = (list_to_set done_ids ∪ downloaded st,
         processed (main_loop env total n i batch st),
         rate_limited st || stops_within env i batch,
         attempts st ++ take m batch,
         (stored st).*1 ++ done_ids,
         error_lines (console st) ++ errors).
Proof.
  destruct (stops_within env i batch) eqn:Hs.
  - destruct (first_stop env batch i Hs) as (pre & v & post & -> & Hpre & Hv).
    pose proof (main_loop_until_stop env total n pre i v post st) as Hview.
    rewrite <- stops_within_false in Hview. specialize (Hview Hpre Hv).
    exists (S (length pre)), (successes env i pre), (reported_errors env i pre).
    assert (take (S (length pre)) (pre ++ v :: post) = pre ++ [v]) as Htake.
    { replace (S (length pre)) with (length (pre ++ [v]))
        by (rewrite length_app; simpl; lia).
      rewrite (cons_middle v pre post), app_assoc. by rewrite take_app_length. }
    rewrite Htake, Hview. unfold view in Hview. injection Hview as _ -> _ _ _ _.
    rewrite orb_true_r. split_and!; [rewrite length_app; simpl; lia | | lia | done | done].
    etrans; [apply successes_sublist|]. by apply sublist_inserts_r.
  - pose proof (main_loop_no_stop env total n batch i st Hs) as Hview.
    exists (length batch), (successes env i batch), (reported_errors env i batch).
    rewrite firstn_all, Hview. unfold view in Hview.
    injection Hview as _ -> _ _ _ _. rewrite orb_false_r.
    split_and!; [done | apply successes_sublist | lia | done | done].
Qed.

(** X15. When no download of the batch stops the loop, every identifier of
    the batch is downloaded once, in order, and counted; those whose download
    succeeds are written and marked complete, the others have their error
    printed; [rate_limited] is left as it was. *)
Theorem whole_batch_processed env total n i batch st :
  stops_within env i batch = false →
  let st' := main_loop env total n i batch st in
  attempts st' = attempts st ++ batch
  ∧ processed st' = processed st + length batch
  ∧ rate_limited st' = rate_limited st
  ∧ downloaded st' = list_to_set (successes env i batch) ∪ downloaded st
  ∧ (stored st').*1 = (stored st).*1 ++ successes env i batch
  ∧ error_lines (console st')
    = error_lines (console st) ++ reported_errors env i batch.
Proof.
  intros Hs st'. pose proof (main_loop_no_stop env total n batch i st Hs) as Hview.
  fold st' in Hview. unfold view in Hview. by simplify_eq.
Qed.

Lemma whole_batch_processed_witness :
  let st' := main_loop all_succeed 2 2 0 ["v1"; "v2"]
               (initial ∅ None (λ _, 22%float)) in
  attempts st' = ["v1"; "v2"]
  ∧ processed st' = 2
  ∧ rate_limited st' = false
  ∧ downloaded st' = list_to_set ["v1"; "v2"] ∪ ∅
  ∧ (stored st').*1 = ["v1"; "v2"]
  ∧ error_lines (console st') = [].
Proof.
  apply (whole_batch_processed all_succeed 2 2 0 ["v1"; "v2"]
           (initial ∅ None (λ _, 22%float))).
  reflexivity.
Defined.

(** X16. The identifiers the loop marks complete are exactly those whose
    transcript it writes, they come from the batch in batch order, and no
    identifier is ever taken out of the completion set. *)
Theorem marked_exactly_when_written env total n i batch st :
  let st' := main_loop env total n i batch st in
  ∃ done_ids,
    (stored st').*1 = (stored st).*1 ++ done_ids
    ∧ downloaded st' = list_to_set done_ids ∪ downloaded st
    ∧ done_ids `sublist_of` batch
    ∧ downloaded st ⊆ downloaded st'.
Proof.
  intros st'.
  destruct (main_loop_view env total n i batch st)
    as (m & done_ids & errors & _ & Hsub & _ & _ & Hview).
  fold st' in Hview. unfold view in Hview. injection Hview as Hdl _ _ Hst _.
  exists done_ids. split_and!; [done | done | | rewrite Hdl; apply union_subseteq_r].
  etrans; [exact Hsub | apply sublist_take].
Qed.

(** X17. The loop fetches the identifiers of the batch in order, each position
    at most once, and stops fetching for good at the first download that
    makes it stop; [processed] counts every fetch but that one. *)
Theorem fetches_follow_the_batch env total n i batch st :
  let st' := main_loop env total n i batch st in
  ∃ m,
    m ≤ length batch
    ∧ attempts st' = attempts st ++ take m batch
    ∧ processed st + m
      = processed st' + (if stops_within env i batch then 1 else 0)
    ∧ (stops_within env i batch = false → m = length batch).
Proof.
  intros st'.
  destruct (main_loop_view env total n i batch st)
    as (m & done_ids & errors & Hm & _ & Hp & Hall & Hview).
  fold st' in Hview, Hp. unfold view in Hview. injection Hview as _ _ Hat _ _.
  by exists m.
Qed.

(** X18. After the loop [rate_limited] is set exactly when it was set before
    or some download made the loop stop. *)
Theorem rate_limited_iff_stopped env total n i batch st :
  rate_limited (main_loop env total n i batch st)
  = rate_limited st || stops_within env i batch.
Proof.
  destruct (main_loop_view env total n i batch st)
    as (m & done_ids & errors & _ & _ & _ & _ & Hview).
  unfold view in Hview. by injection Hview as _ Hrl _ _ _.
Qed.

(** ** Periodic saves *)

Lemma download_disk env i v st :
  let st1 := (download_transcript_chunks env i v st).2 in
  progress_file st1 = progress_file st ∧ ticks st1 = ticks st.
Proof.
  unfold download_transcript_chunks.
  destruct (fetch env i v) as [msg|[|s segs]]; simpl; try done.
  by destruct (store_fault env i v).
Qed.

Lemma succ_div_save_every p :
  S p / SAVE_EVERY
  = p / SAVE_EVERY + (if S p mod SAVE_EVERY =? 0 then 1 else 0).
Proof.
  unfold SAVE_EVERY.
  pose proof (Nat.div_mod_eq p 5) as Hp.
  pose proof (Nat.mod_upper_bound p 5 ltac:(lia)) as Hr.
  destruct (decide (p mod 5 = 4)) as [H4|H4].
  - assert (S p mod 5 = 0) as ->
      by (symmetry; apply (Nat.mod_unique (S p) 5 (p / 5 + 1) 0); lia).
    simpl. symmetry. apply (Nat.div_unique (S p) 5 (p / 5 + 1) 0); lia.
  - assert (S p mod 5 = S (p mod 5)) as ->
      by (symmetry; apply (Nat.mod_unique (S p) 5 (p / 5) (S (p mod 5))); lia).
    simpl. rewrite Nat.add_0_r.
    symmetry. apply (Nat.div_unique (S p) 5 (p / 5) (S (p mod 5))); lia.
Qed.

(** One iteration, as far as the progress file is concerned. *)
Lemma main_loop_step_disk env total n i v batch st :
  (stops_loop env i v = true
   ∧ downloaded (main_loop env total n i (v :: batch) st) = downloaded st
   ∧ processed (main_loop env total n i (v :: batch) st) = processed st
   ∧ progress_file (main_loop env total n i (v :: batch) st) = progress_file st
   ∧ ticks (main_loop env total n i (v :: batch) st) = ticks st)
  ∨ (stops_loop env i v = false
     ∧ ∃ st1,
         main_loop env total n i (v :: batch) st
         = main_loop env total n (S i) batch st1
         ∧ processed st1 = S (processed st)
         ∧ if S (processed st) mod SAVE_EVERY =? 0
           then progress_file st1
                = Some (joined (json_dump env
                    {| completed := elements (downloaded st1); total := total;
                       timestamp := clock env (ticks st) |}))
                ∧ ticks st1 = S (ticks st)
           else progress_file st1 = progress_file st ∧ ticks st1 = ticks st).
Proof.
  pose proof (download_disk env i v
                (print (Downloading (size (downloaded st) + processed st + 1) v) st))
    as [Hpf Htk].
  simpl in Hpf, Htk.
  destruct (stops_loop env i v) eqn:Hstop; [left|right]; (split; [done|]).
  - run_download env i v st.
    unfold stops_loop in Hstop.
    destruct result as [chunks|error]; destruct Hr as [Hs He]; rewrite He in Hstop;
      [done|].
    rewrite Hstop. simpl in *. by rewrite Hdl, Hp, Hpf, Htk.
  - run_download env i v st.
    assert (∀ st2 td, processed st2 = processed st →
              progress_file st2 = progress_file st → ticks st2 = ticks st →
              let st3 := after_download env total n i td st2 in
              processed st3 = S (processed st)
              ∧ downloaded st3 = downloaded st2
              ∧ if S (processed st) mod SAVE_EVERY =? 0
                then progress_file st3
                     = Some (joined (json_dump env
                         {| completed := elements (downloaded st2); total := total;
                            timestamp := clock env (ticks st) |}))
                     ∧ ticks st3 = S (ticks st)
                else progress_file st3 = progress_file st ∧ ticks st3 = ticks st)
      as Hafter.
    { intros st2 td H1 H2 H3. unfold after_download.
      cbn [processed downloaded progress_file ticks]. rewrite H1.
      destruct (S (processed st) mod SAVE_EVERY =? 0), (i <? n - 1);
        cbn [processed downloaded progress_file ticks print save];
        rewrite ?save_progress_content, ?H3; by simplify_eq. }
    unfold stops_loop in Hstop.
    destruct result as [chunks|error]; destruct Hr as [Hs He]; rewrite He in Hstop.
    + eexists. split; [done|].
      edestruct Hafter as (H1 & H2 & H3); [| | |split; [exact H1|]].
      * simpl. exact Hp.
      * simpl. exact Hpf.
      * simpl. exact Htk.
      * rewrite H2. exact H3.
    + rewrite Hstop. eexists. split; [done|].
      edestruct Hafter as (H1 & H2 & H3); [| | |split; [exact H1|]].
      * simpl. exact Hp.
      * simpl. exact Hpf.
      * simpl. exact Htk.
      * rewrite H2. exact H3.
Qed.

Lemma main_loop_saves env total n batch : ∀ i st,
  let st' := main_loop env total n i batch st in
  ticks st' + processed st / SAVE_EVERY = ticks st + processed st' / SAVE_EVERY
  ∧ ((processed st' = processed st ∧ downloaded st' = downloaded st
      ∧ progress_file st' = progress_file st ∧ ticks st' = ticks st)
     ∨ (processed st < processed st'
        ∧ (processed st' mod SAVE_EVERY = 0 →
           progress_file st'
           = Some (joined (json_dump env
               {| completed := elements (downloaded st'); total := total;
                  timestamp := clock env (Nat.pred (ticks st')) |}))))).
Proof.
  induction batch as [|v batch IH]; intros i st; cbv zeta.
  { simpl. split; [lia | by left]. }
  destruct (main_loop_step_disk env total n i v batch st)
    as [(_ & Hd & Hp & Hf & Ht)|(_ & st1 & Heq & Hp1 & Hsave)].
  { rewrite Hp, Ht. split; [lia | by left]. }
  rewrite Heq. destruct (IH (S i) st1) as [Hticks Hlast]. cbv zeta in Hticks, Hlast.
  set (st' := main_loop env total n (S i) batch st1) in *.
  rewrite Hp1 in Hticks, Hlast. rewrite succ_div_save_every in Hticks.
  split.
  - destruct (S (processed st) mod SAVE_EVERY =? 0);
      destruct Hsave as [_ Htk]; lia.
  - right. destruct Hlast as [(Hp' & Hd' & Hf' & Ht')|[Hlt Hfile]].
    + split; [lia|]. rewrite Hp', Hd', Hf', Ht'. intros Hmod.
      apply Nat.eqb_eq in Hmod. rewrite Hmod in Hsave.
      destruct Hsave as [-> ->]. done.
    + split; [lia | done].
Qed.

(** X19. The loop saves the progress file once each time [processed] reaches
    a multiple of [SAVE_EVERY], and at no other time. *)
Theorem save_cadence env total n i batch st :
  let st' := main_loop env total n i batch st in
  ticks st' + processed st / SAVE_EVERY = ticks st + processed st' / SAVE_EVERY.
Proof. apply main_loop_saves. Qed.

(** X20. When the loop has processed something and ends with [processed] at a
    multiple of [SAVE_EVERY], the progress file holds what [json.dump] writes
    for the final completion set: nothing completed is missing from it. *)
Theorem last_periodic_save_is_current env total n i batch st :
  let st' := main_loop env total n i batch st in
  processed st < processed st' →
  processed st' mod SAVE_EVERY = 0 →
  progress_file st'
  = Some (joined (json_dump env
      {| completed := elements (downloaded st'); total := total;
         timestamp := clock env (Nat.pred (ticks st')) |})).
Proof.
  cbv zeta. intros Hlt Hmod.
  destruct (main_loop_saves env total n batch i st) as [_ [(Hp & _)|[_ Hfile]]];
    [lia | by apply Hfile].
Qed.

Lemma last_periodic_save_is_current_witness :
  let st' := main_loop all_succeed 5 5 0 ["v1"; "v2"; "v3"; "v4"; "v5"]
               (initial ∅ None (λ _, 22%float)) in
  progress_file st'
  = Some (joined (json_dump all_succeed
      {| completed := elements (downloaded st'); total := 5;
         timestamp := clock all_succeed (Nat.pred (ticks st')) |})).
Proof.
  apply (last_periodic_save_is_current all_succeed 5 5 0
           ["v1"; "v2"; "v3"; "v4"; "v5"] (initial ∅ None (λ _, 22%float))).
  - vm_compute. lia.
  - reflexivity.
Defined.

(** ** The script as a whole *)

(** X21. When every identifier of the list is already in the reconciled
    completion set, the script stops before the main loop: it fetches
    nothing and does not rewrite the progress file. *)
Theorem nothing_left_to_do env all_video_ids progress output_dir disk rnd0 :
  (∀ x, x ∈ all_video_ids → x ∈ reconcile progress output_dir) →
  let run := script env all_video_ids progress output_dir disk rnd0 in
  attempts run = [] ∧ progress_file run = disk ∧ stored run = []
  ∧ downloaded run = reconcile progress output_dir.
Proof.
  intros Hall%batch_videos_all_done. unfold script. by rewrite Hall.
Qed.

Lemma nothing_left_to_do_witness :
  let run := script all_succeed ["a"; "b"] (Some (Some ["a"]))
               (Some [ {| name := "b"; is_dir := true |} ]) (Some "old")
               (λ _, 22%float) in
  attempts run = [] ∧ progress_file run = Some "old" ∧ stored run = []
  ∧ downloaded run
    = reconcile (Some (Some ["a"])) (Some [ {| name := "b"; is_dir := true |} ]).
Proof.
  apply (nothing_left_to_do all_succeed ["a"; "b"] (Some (Some ["a"]))
           (Some [ {| name := "b"; is_dir := true |} ]) (Some "old")
           (λ _, 22%float)).
  intros x Hx. apply elem_of_cons in Hx as [->|Hx]; [by vm_compute|].
  apply elem_of_cons in Hx as [->|Hx]; [by vm_compute|].
  by apply elem_of_nil in Hx.
Defined.

(** X22. When the batch is not empty, the script ends by writing the progress
    file, whether or not the loop was stopped: the file then holds what
    [json.dump] writes for a document whose ['completed'] list has, once
    each, the identifiers of the final completion set, and whose ['total'] is
    the length of the identifier list; every identifier that was complete at
    the start is in it. *)
Theorem final_save_is_current env all_video_ids progress output_dir disk rnd0 :
  batch_videos all_video_ids (reconcile progress output_dir) ≠ [] →
  let run := script env all_video_ids progress output_dir disk rnd0 in
  ∃ p,
    progress_file run = Some (joined (json_dump env p))
    ∧ (∀ x, (x ∈ completed p) ↔ (x ∈ downloaded run))
    ∧ NoDup (completed p)
    ∧ total p = length all_video_ids
    ∧ reconcile progress output_dir ⊆ downloaded run.
Proof.
  intros Hne. unfold script.
  destruct (batch_videos all_video_ids (reconcile progress output_dir))
    as [|v batch] eqn:Hb; [done|].
  destruct (main_loop_view env (length all_video_ids) (length (v :: batch)) 0
              (v :: batch) (initial (reconcile progress output_dir) disk rnd0))
    as (m & done_ids & errors & _ & _ & _ & _ & Hview).
  remember (main_loop env (length all_video_ids) (length (v :: batch)) 0
              (v :: batch) (initial (reconcile progress output_dir) disk rnd0))
    as st eqn:Hst.
  unfold view in Hview. injection Hview as Hdl _ _ _ _.
  cbv zeta. eexists. split_and!.
  - unfold save. cbn [progress_file]. apply save_progress_content.
  - intros x. cbn [completed downloaded save]. apply elem_of_elements.
  - cbn [completed]. apply NoDup_elements.
  - done.
  - cbn [downloaded save]. rewrite Hdl. apply union_subseteq_r.
Qed.

Lemma final_save_is_current_witness :
  let run := script third_is_throttled ten_videos None (Some []) None
               (λ _, 22%float) in
  ∃ p,
    progress_file run = Some (joined (json_dump third_is_throttled p))
    ∧ (∀ x, (x ∈ completed p) ↔ (x ∈ downloaded run))
    ∧ NoDup (completed p)
    ∧ total p = length ten_videos
    ∧ reconcile None (Some []) ⊆ downloaded run.
Proof.
  apply (final_save_is_current third_is_throttled ten_videos None (Some []) None
           (λ _, 22%float)).
  vm_compute. discriminate.
Defined.

(** ** From one run to the next *)

Lemma remaining_cons_in a l (d : gset string) :
  a ∈ d → remaining_videos (a :: l) d = remaining_videos l d.
Proof. intros H. unfold remaining_videos. rewrite filter_cons_False; [done|]. tauto. Qed.

Lemma remaining_cons_out a l (d : gset string) :
  a ∉ d → remaining_videos (a :: l) d = a :: remaining_videos l d.
Proof. intros H. unfold remaining_videos. by rewrite filter_cons_True. Qed.

Lemma remaining_add_absent l a (d : gset string) :
  a ∉ l → remaining_videos l ({[a]} ∪ d) = remaining_videos l d.
Proof.
  induction l as [|b l IH]; intros Ha; [done|].
  apply not_elem_of_cons in Ha as [Hab Ha].
  destruct (decide (b ∈ d)) as [Hb|Hb].
  - rewrite !remaining_cons_in; [by apply IH | done |].
    apply elem_of_union. by right.
  - rewrite !remaining_cons_out; [by rewrite IH | done |].
    intros [Hba%elem_of_singleton|?]%elem_of_union; [|done]. by subst.
Qed.

Lemma remaining_after_window all_video_ids (d : gset string) : ∀ n,
  NoDup all_video_ids →
  remaining_videos all_video_ids
    (list_to_set (take n (remaining_videos all_video_ids d)) ∪ d)
  = drop n (remaining_videos all_video_ids d).
Proof.
  induction all_video_ids as [|a l IH]; intros n Hnd.
  { unfold remaining_videos. rewrite !filter_nil. by rewrite drop_nil. }
  apply NoDup_cons in Hnd as [Ha Hnd].
  destruct (decide (a ∈ d)) as [Hd|Hd].
  - rewrite (remaining_cons_in a l d Hd).
    rewrite remaining_cons_in; [by apply IH|]. apply elem_of_union. by right.
  - rewrite (remaining_cons_out a l d Hd). destruct n as [|n].
    + simpl. rewrite (left_id_L ∅ (∪)). by apply remaining_cons_out.
    + cbn [take drop list_to_set].
      rewrite remaining_cons_in.
      * rewrite <- (assoc_L (∪)), remaining_add_absent by done. by apply IH.
      * apply elem_of_union. left. apply elem_of_union. left.
        by apply elem_of_singleton.
Qed.

Lemma succeeds_goes_on env i v : succeeds env i v = true → stops_loop env i v = false.
Proof.
  unfold succeeds, stops_loop, reported_error, raised.
  destruct (fetch env i v) as [|[|]]; try done.
  by destruct (store_fault env i v).
Qed.

Lemma all_succeed_within env batch : ∀ i,
  (∀ j u, batch !! j = Some u → succeeds env (i + j) u = true) →
  stops_within env i batch = false ∧ successes env i batch = batch.
Proof.
  induction batch as [|v batch IH]; intros i H; [done|].
  assert (succeeds env i v = true) as Hv
    by (rewrite <- (Nat.add_0_r i); by apply H).
  destruct (IH (S i)) as [Hs Hb].
  { intros j u Hj. replace (S i + j) with (i + S j) by lia. by apply H. }
  simpl. by rewrite Hv, (succeeds_goes_on _ _ _ Hv), Hs, Hb.
Qed.

(** X23. Resuming: when the identifier list has no duplicates and every
    download of a run's batch succeeds, the run marks the whole batch
    complete, and the batch computed from the completion set it leaves is the
    next window of the remaining identifiers. *)
Theorem next_run_takes_next_window env all_video_ids progress output_dir disk rnd0 :
  NoDup all_video_ids →
  (∀ j u,
     batch_videos all_video_ids (reconcile progress output_dir) !! j = Some u →
     succeeds env j u = true) →
  let run := script env all_video_ids progress output_dir disk rnd0 in
  downloaded run
  = list_to_set (batch_videos all_video_ids (reconcile progress output_dir))
    ∪ reconcile progress output_dir
  ∧ batch_videos all_video_ids (downloaded run)
    = take BATCH_SIZE
        (drop BATCH_SIZE
           (remaining_videos all_video_ids (reconcile progress output_dir))).
Proof.
  intros Hnd Hok. cbv zeta.
  assert (downloaded (script env all_video_ids progress output_dir disk rnd0)
          = list_to_set (batch_videos all_video_ids (reconcile progress output_dir))
            ∪ reconcile progress output_dir) as Hdl.
  { unfold script.
    destruct (batch_videos all_video_ids (reconcile progress output_dir))
      as [|v batch] eqn:Hb.
    { simpl. by rewrite (left_id_L ∅ (∪)). }
    destruct (all_succeed_within env (v :: batch) 0 Hok) as [Hs Hall].
    pose proof (main_loop_no_stop env (length all_video_ids) (length (v :: batch))
                  (v :: batch) 0
                  (initial (reconcile progress output_dir) disk rnd0) Hs) as Hview.
    remember (main_loop env (length all_video_ids) (length (v :: batch)) 0
                (v :: batch) (initial (reconcile progress output_dir) disk rnd0))
      as st eqn:Hst.
    rewrite Hall in Hview. unfold view in Hview. injection Hview as Hd _ _ _ _.
    cbn [downloaded save]. by rewrite Hd. }
  split; [done|]. rewrite Hdl. unfold batch_videos at 1 2.
  unfold START_INDEX. rewrite !drop_0.
  by rewrite remaining_after_window.
Qed.

Lemma next_run_takes_next_window_witness :
  let run := script all_succeed ["v1"; "v2"] None (Some []) None (λ _, 22%float) in
  downloaded run
  = list_to_set (batch_videos ["v1"; "v2"] (reconcile None (Some [])))
    ∪ reconcile None (Some [])
  ∧ batch_videos ["v1"; "v2"] (downloaded run)
    = take BATCH_SIZE
        (drop BATCH_SIZE (remaining_videos ["v1"; "v2"] (reconcile None (Some [])))).
Proof.
  apply (next_run_takes_next_window all_succeed ["v1"; "v2"] None (Some []) None
           (λ _, 22%float)).
  - apply NoDup_cons. split; [|apply NoDup_singleton].
    intros H%list_elem_of_singleton. discriminate H.
  - intros j u _. reflexivity.
Defined.

(** ** The chunker: a duration that is not a number *)

Lemma SFcompare_refl x : x ≠ S754_nan → SFcompare x x = Some Eq.
Proof.
  destruct x as [s|s| |s m e]; intros H; try done; simpl.
  - by destruct s.
  - rewrite Z.compare_refl. change (Pos.compare_cont Eq m m) with (Pos.compare m m).
    rewrite Pos.compare_refl. by destruct s.
Qed.

Lemma is_nan_not_number x : PrimFloat.is_nan x = true → ¬ is_number x.
Proof.
  unfold PrimFloat.is_nan, is_number. rewrite FloatAxioms.eqb_spec. unfold SFeqb.
  intros H Hx. pose proof (SFcompare_refl (Prim2SF x) Hx) as Hr.
  by rewrite Hr in H.
Qed.

Lemma add_durations_number post : ∀ x,
  is_number (add_durations x post) → is_number x.
Proof.
  induction post as [|s post IH]; intros x H; [done|].
  apply IH in H. by apply add_number_l in H.
Qed.

(** X24. Once the running total of a chunk is NaN the loop never leaves at
    the [break]: that chunk takes every remaining segment and is the last
    one. *)
Theorem nan_total_takes_the_rest segments min_duration max_duration rnd k g
    pre post :
  chunk_constituents segments min_duration max_duration rnd !! k = Some g →
  g = pre ++ post →
  PrimFloat.is_nan (accumulated pre) = true →
  length (chunk_constituents segments min_duration max_duration rnd) = S k.
Proof.
  intros Hk Hg Hnan%is_nan_not_number.
  pose proof (lookup_lt_Some _ _ _ Hk) as Hlt.
  destruct (decide (S k < length
              (chunk_constituents segments min_duration max_duration rnd)))
    as [Hmore|]; [exfalso | lia].
  unfold chunk_constituents in *. rewrite length_fmap in Hmore.
  apply list_lookup_fmap_Some in Hk as ([c g0] & Hg0 & Hk). simpl in Hg0. subst g0.
  unfold chunk_trace in *. destruct segments as [|s0 segs]; [done|].
  apply chunk_loop_bounds in Hk as [_ Hbrk].
  destruct (Hbrk Hmore) as (rest' & Hstop & Hne).
  destruct rest' as [|nxt rest']; [done|].
  destruct (Hstop nxt eq_refl) as [_ Hor].
  apply Hnan, (add_durations_number post).
  assert (add_durations (accumulated pre) post = accumulated g) as ->.
  { subst g. unfold accumulated, add_durations. by rewrite foldl_app. }
  apply orb_true_iff in Hor as [Ht|Hx].
  - by apply leb_numbers in Ht as [].
  - apply ltb_numbers in Hx as [_ Hx]. by apply add_number_l in Hx.
Qed.

Lemma nan_total_takes_the_rest_witness :
  length (chunk_constituents nan_segments 20 30 (λ _, 22%float)) = 1.
Proof.
  apply (nan_total_takes_the_rest nan_segments 20 30 (λ _, 22%float) 0
           nan_segments [seg 0 PrimFloat.nan "a"] [seg 1 25 "b"; seg 26 25 "c"]);
    reflexivity.
Defined.
